(** * garmin-ipc: the tracking-forwarder function

    A shallow embedding of [packages/ipc/tracking-forwarder/main.js] and the
    properties of its request pipeline: authorization, shape filtering, event
    selection, content filtering, the forwarded message and the outbound
    calls.

    Conventions of the embedding.
    - A JavaScript string is a [string] whose characters are the bytes of its
      UTF-8 encoding.  The handler splits on the ASCII space, concatenates
      and compares strings; all of these commute with the encoding.  The
      base64 decoder reads the UTF-16 code units of the string, which
      [code_units] recovers from the bytes.
    - A [Buffer] is a list of bytes ([ascii]).
    - A Number is carried by its exact value ([Qc]): the finite doubles are
      rationals, the handler never rounds (it compares numbers, takes the
      sign of a difference and prints them), [===] is equality of values and
      [-0] is not distinguished from [0], as in the source's comparisons. *)

From Stdlib Require Import ZArith NArith QArith Qcanon String Ascii List Lia Bool.
From Stdlib Require Import Sorted Permutation.
From stdpp Require Import base option numbers list gmap strings pretty.

Set Warnings "-register-all".
Local Open Scope string_scope.
Local Open Scope list_scope.

(** ** Buffers and base64 (Node's [Buffer]) *)

Section Buffers.
Local Open Scope N_scope.

Definition Buffer := list ascii.

(** [Buffer.from(s)]: the UTF-8 bytes of a string. *)
Definition Buffer_from (s : string) : Buffer := list_ascii_of_string s.

Definition base64_alphabet : string :=
  "ABCDEFGHIJKLMNOPQRSTUVWXYZabcdefghijklmnopqrstuvwxyz0123456789+/".

(** The character of a sextet. *)
Definition base64_char (n : N) : ascii :=
  match String.get (N.to_nat n) base64_alphabet with
  | Some c => c
  | None => "="%char
  end.

(** [buf.toString('base64')]: three bytes give four characters, a shorter
    last group is padded with [=]. *)
Fixpoint Buffer_toString_base64 (buf : Buffer) : string :=
  match buf with
  | [] => EmptyString
  | [x] =>
      let a := N_of_ascii x in
      String (base64_char (a / 4))
        (String (base64_char ((a mod 4) * 16)) "==")
  | [x; y] =>
      let a := N_of_ascii x in
      let b := N_of_ascii y in
      String (base64_char (a / 4))
        (String (base64_char ((a mod 4) * 16 + b / 16))
           (String (base64_char ((b mod 16) * 4)) "="))
  | x :: y :: z :: buf' =>
      let a := N_of_ascii x in
      let b := N_of_ascii y in
      let c := N_of_ascii z in
      String (base64_char (a / 4))
        (String (base64_char ((a mod 4) * 16 + b / 16))
           (String (base64_char ((b mod 16) * 4 + c / 64))
              (String (base64_char (c mod 64))
                 (Buffer_toString_base64 buf'))))
  end.

(** Node's [unbase64] table: the standard and the URL-safe alphabet. *)
Definition unbase64 (c : ascii) : option N :=
  let n := N_of_ascii c in
  if (65 <=? n) && (n <=? 90) then Some (n - 65)
  else if (97 <=? n) && (n <=? 122) then Some (n - 71)
  else if (48 <=? n) && (n <=? 57) then Some (n + 4)
  else if (n =? 43) || (n =? 45) then Some 62
  else if (n =? 47) || (n =? 95) then Some 63
  else None.

(** The legal characters of a base64 string, given by the low bytes of its
    code units, up to its first [=]; Node's decoder skips every other
    character. *)
Fixpoint base64_sextets (s : string) : list N :=
  match s with
  | EmptyString => []
  | String c s' =>
      if Ascii.eqb c "="
      then []
      else match unbase64 c with
           | Some n => n :: base64_sextets s'
           | None => base64_sextets s'
           end
  end.

Fixpoint base64_bytes (l : list N) : Buffer :=
  match l with
  | a :: b :: c :: d :: l' =>
      ascii_of_N (a * 4 + b / 16)
        :: ascii_of_N ((b mod 16) * 16 + c / 4)
        :: ascii_of_N ((c mod 4) * 64 + d)
        :: base64_bytes l'
  | [a; b; c] =>
      [ascii_of_N (a * 4 + b / 16); ascii_of_N ((b mod 16) * 16 + c / 4)]
  | [a; b] => [ascii_of_N (a * 4 + b / 16)]
  | _ => []
  end.

(** A continuation byte of UTF-8: [10xxxxxx]. *)
Definition utf8_continuation (c : ascii) : bool := N_of_ascii c / 64 =? 2.

(** The UTF-16 code units of a JavaScript string, read off its UTF-8
    bytes: a sequence of one, two or three bytes is one unit, a sequence of
    four bytes (a character above U+FFFF) is a pair of surrogates.  A byte
    that starts no sequence stands for U+FFFD; no JavaScript string has
    such a byte in its encoding. *)
Fixpoint code_units (s : string) : list N :=
  match s with
  | EmptyString => []
  | String a s1 =>
      let x := N_of_ascii a in
      if x <? 128 then x :: code_units s1
      else
        match s1 with
        | EmptyString => [65533]
        | String b s2 =>
            let y := N_of_ascii b in
            if (x / 32 =? 6) && utf8_continuation b
            then (x mod 32 * 64 + y mod 64) :: code_units s2
            else
              match s2 with
              | EmptyString => 65533 :: code_units s1
              | String c s3 =>
                  let z := N_of_ascii c in
                  if (x / 16 =? 14) && utf8_continuation b && utf8_continuation c
                  then (x mod 16 * 4096 + y mod 64 * 64 + z mod 64) :: code_units s3
                  else
                    match s3 with
                    | EmptyString => 65533 :: code_units s1
                    | String d s4 =>
                        let t := N_of_ascii d in
                        if (x / 8 =? 30) && utf8_continuation b
                           && utf8_continuation c && utf8_continuation d
                        then
                          let v :=
                            x mod 8 * 262144 + y mod 64 * 4096 + z mod 64 * 64
                              + t mod 64 - 65536 in
                          (55296 + v / 1024) :: (56320 + v mod 1024)
                            :: code_units s4
                        else 65533 :: code_units s1
                    end
              end
        end
  end.

(** Node's base64 decoder reads the string one code unit at a time and
    looks at the low byte of the unit only
    ([unbase64(static_cast<uint8_t>(src[i]))]): a character above U+00FF
    counts as the character of its low byte. *)
Definition low_bytes (s : string) : string :=
  string_of_list_ascii (map (fun u => ascii_of_N (u mod 256)) (code_units s)).

(** [Buffer.from(s, 'base64')]. *)
Definition Buffer_from_base64 (s : string) : Buffer :=
  base64_bytes (base64_sextets (low_bytes s)).

(** ** UTF-8 decoding ([buf.toString('utf8')])

    The decoder of the Encoding Standard: a well-formed sequence is kept, an
    ill-formed one is replaced by U+FFFD (bytes EF BF BD) and the byte that
    broke it is read again. *)

Record utf8_state := {
  needed : nat;          (* continuation bytes still expected *)
  lower : N;             (* bounds of the next continuation byte *)
  upper : N;
  pending : list ascii;  (* bytes of the sequence read so far *)
}.

Definition utf8_idle : utf8_state :=
  {| needed := 0; lower := 128; upper := 191; pending := [] |}.

Definition U_FFFD : list ascii :=
  [ascii_of_N 239; ascii_of_N 191; ascii_of_N 189].

Definition utf8_lead (b : ascii) : list ascii * utf8_state :=
  let n := N_of_ascii b in
  if n <=? 127 then ([b], utf8_idle)
  else if (194 <=? n) && (n <=? 223) then
    ([], {| needed := 1; lower := 128; upper := 191; pending := [b] |})
  else if (224 <=? n) && (n <=? 239) then
    ([], {| needed := 2;
            lower := if n =? 224 then 160 else 128;
            upper := if n =? 237 then 159 else 191;
            pending := [b] |})
  else if (240 <=? n) && (n <=? 244) then
    ([], {| needed := 3;
            lower := if n =? 240 then 144 else 128;
            upper := if n =? 244 then 143 else 191;
            pending := [b] |})
  else (U_FFFD, utf8_idle).

Definition utf8_step (st : utf8_state) (b : ascii) : list ascii * utf8_state :=
  match needed st with
  | O => utf8_lead b
  | S k =>
      let n := N_of_ascii b in
      if (lower st <=? n) && (n <=? upper st) then
        match k with
        | O => (pending st ++ [b], utf8_idle)
        | S _ => ([], {| needed := k; lower := 128; upper := 191;
                         pending := pending st ++ [b] |})
        end
      else
        let '(out, st') := utf8_lead b in (U_FFFD ++ out, st')
  end.

Fixpoint utf8_decode (st : utf8_state) (buf : Buffer) : list ascii :=
  match buf with
  | [] => match needed st with O => [] | S _ => U_FFFD end
  | b :: buf' =>
      let '(out, st') := utf8_step st b in out ++ utf8_decode st' buf'
  end.

Definition Buffer_toString_utf8 (buf : Buffer) : string :=
  string_of_list_ascii (utf8_decode utf8_idle buf).

End Buffers.

(** ** Strings *)

(** [s.split(' ')] for a one-character separator: never empty. *)
Fixpoint String_split (sep : ascii) (s : string) : list string :=
  match s with
  | EmptyString => [EmptyString]
  | String c s' =>
      if Ascii.eqb c sep then EmptyString :: String_split sep s'
      else match String_split sep s' with
           | p :: ps => String c p :: ps
           | [] => [String c EmptyString]
           end
  end.

(** ** JavaScript values *)

Definition number := Qc.

(** A numeric literal. *)
Definition num (z : Z) : number := Qc_of_Z z.

(** Arrays are the objects the handler calls mutating methods on ([sort],
    [pop]): an array value is a reference into the heap.  Plain objects are
    never written to and are kept as immutable records of their own
    properties, in insertion order, each key once (as [JSON.parse] builds
    them). *)
Abbreviation loc := positive.

Inductive value :=
| VUndefined
| VNull
| VBool (b : bool)
| VNum (n : number)
| VStr (s : string)
| VArr (l : loc)
| VObj (properties : list (string * value)).

Abbreviation Heap := (gmap loc (list value)).

(** An [Error] object; the handler reads its [message]. *)
Record Error := { name : string; message : string }.

Definition TypeError (msg : string) : Error :=
  {| name := "TypeError"; message := msg |}.

(** The completion of an evaluation: a value, or a thrown exception (for an
    [async] function: the resolution or the rejection of its promise). *)
Inductive outcome (A : Type) :=
| Return (a : A)
| Throw (e : Error).
Arguments Return {A} a.
Arguments Throw {A} e.

Definition obind {A B} (o : outcome A) (k : A -> outcome B) : outcome B :=
  match o with
  | Return a => k a
  | Throw e => Throw e
  end.

Notation "x <-? o ;; k" := (obind o (fun x => k))
  (at level 100, o at next level, right associativity).

(** The conversions of the engine that the handler reaches only on
    ill-typed input, and the printing of a Number: parameters of the
    development.  [None] stands for [NaN]. *)
Class Engine := {
  (** [Number::toString] *)
  Number_toString : number -> string;
  (** [StringToNumber] *)
  StringToNumber : string -> option number;
  (** [ToString] of an object or array ([OrdinaryToPrimitive], hint string) *)
  Object_ToString : Heap -> value -> outcome string;
  (** [ToNumber] of an object or array ([OrdinaryToPrimitive], hint number) *)
  Object_ToNumber : Heap -> value -> outcome (option number);
}.

Section Values.
Context {js : Engine}.

(** [!!v] *)
Definition ToBoolean (v : value) : bool :=
  match v with
  | VUndefined | VNull => false
  | VBool b => b
  | VNum n => negb (bool_decide (n = num 0))
  | VStr s => negb (String.eqb s "")
  | VArr _ | VObj _ => true
  end.

Definition ToNumber (h : Heap) (v : value) : outcome (option number) :=
  match v with
  | VUndefined => Return None
  | VNull => Return (Some (num 0))
  | VBool b => Return (Some (if b then num 1 else num 0))
  | VNum n => Return (Some n)
  | VStr s => Return (StringToNumber s)
  | VArr _ | VObj _ => Object_ToNumber h v
  end.

Definition ToString (h : Heap) (v : value) : outcome string :=
  match v with
  | VUndefined => Return "undefined"
  | VNull => Return "null"
  | VBool b => Return (if b then "true" else "false")
  | VNum n => Return (Number_toString n)
  | VStr s => Return s
  | VArr _ | VObj _ => Object_ToString h v
  end.

Fixpoint assoc (k : string) (ps : list (string * value)) : option value :=
  match ps with
  | [] => None
  | (k', v) :: ps' => if String.eqb k k' then Some v else assoc k ps'
  end.

(** [v.k], for a key [k] that no prototype defines (every key the handler
    reads): a [TypeError] on [undefined] and [null], the own property of an
    object, [undefined] elsewhere. *)
Definition GetV (v : value) (k : string) : outcome value :=
  match v with
  | VUndefined =>
      Throw (TypeError ("Cannot read properties of undefined (reading '" +:+ k +:+ "')"))
  | VNull =>
      Throw (TypeError ("Cannot read properties of null (reading '" +:+ k +:+ "')"))
  | VObj ps => Return (default VUndefined (assoc k ps))
  | VBool _ | VNum _ | VStr _ | VArr _ => Return VUndefined
  end.

(** [x - y] *)
Definition JS_sub (h : Heap) (x y : value) : outcome (option number) :=
  nx <-? ToNumber h x ;;
  ny <-? ToNumber h y ;;
  Return (match nx, ny with
          | Some p, Some q => Some (p - q)%Qc
          | _, _ => None
          end).

(** [v === s] for a string [s] *)
Definition strict_eq_string (v : value) (s : string) : bool :=
  match v with
  | VStr s' => String.eqb s' s
  | _ => false
  end.

(** [v === n] for a Number [n] *)
Definition strict_eq_number (v : value) (n : number) : bool :=
  match v with
  | VNum n' => bool_decide (n' = n)
  | _ => false
  end.

Definition Array_isArray (v : value) : bool :=
  match v with
  | VArr _ => true
  | _ => false
  end.

Definition is_undefined (v : value) : bool :=
  match v with
  | VUndefined => true
  | _ => false
  end.

(** *** [Array.prototype.sort]

    The comparison of two elements: a result that is positive puts the
    first after the second, [NaN] counts as zero. *)
Definition comes_after (v : option number) : bool :=
  match v with
  | Some q => bool_decide (num 0 < q)%Qc
  | None => false
  end.

Section Sort.
Variable comparefn : value -> value -> outcome (option number).

(** [x] is older in the array than every element of [l]: it goes before
    the first element it does not come after, which keeps the sort stable. *)
Fixpoint sort_insert (x : value) (l : list value) : outcome (list value) :=
  match l with
  | [] => Return [x]
  | y :: l' =>
      v <-? comparefn x y ;;
      if comes_after v
      then (r <-? sort_insert x l' ;; Return (y :: r))
      else Return (x :: y :: l')
  end.

Fixpoint sort_list (l : list value) : outcome (list value) :=
  match l with
  | [] => Return []
  | x :: l' => s <-? sort_list l' ;; sort_insert x s
  end.

(** The sorted elements of an array: its [undefined] elements are not
    compared and go last. *)
Definition sorted_elements (l : list value) : outcome (list value) :=
  s <-? sort_list (filter (fun v => is_undefined v = false) l) ;;
  Return (s ++ filter (fun v => is_undefined v = true) l).

End Sort.
End Values.

(** ** Configuration ([process.env])

    Every variable is required except the two of the log sink. *)
Record Config := {
  BETTERSTACK_LOGS_BEARER_TOKEN : option string;
  BETTERSTACK_LOGS_HOST : option string;
  GARMIN_INBOUND_API_HOST : string;
  GARMIN_INBOUND_API_USER : string;
  GARMIN_INBOUND_API_PASS : string;
  REQUEST_AUTH_TOKEN : string;
  TRACKING_SENDER_DEVICE_IMEI : string;
  TRACKING_SENDER_INREACH_ADDRESS : string;
  TRACKING_RECEIVER_DEVICE_IMEI : string;
}.

(** ** The invocation: event and context

    The [http] part of the event is built by the platform and typed; the
    parameters parsed from the request body ([Events]) are whatever JSON the
    caller sent, [VUndefined] when absent. *)
Module WebEventHTTP.
Record t := {
  authorization : option string;  (* headers.authorization *)
  method : string;
  path : string;
}.
End WebEventHTTP.

Record InvocationEvent := {
  http : option WebEventHTTP.t;
  Version : value;
  Events : value;
}.

Record InvocationContext := {
  activationId : string;
  apiHost : string;
  apiKey : string;
  deadline : number;
  functionName : string;
  functionVersion : string;
  getRemainingTimeInMillis : number;
  namespace : string;
  requestId : string;
}.

(** ** Outbound requests *)

Record IPCInboundCoordinate := {
  Latitude : value;
  Longitude : value;
}.

Record IPCInboundReferencePoint := {
  LocationType : string;
  Altitude : value;
  Speed : value;
  Course : value;
  Coordinate : IPCInboundCoordinate;
}.

Record IPCInboundSendMessage := {
  Recipients : list string;
  Sender : string;
  Timestamp : number;
  Message : string;
  ReferencePoint : IPCInboundReferencePoint;
}.

Module LogContext.
Record t := {
  activation_id : string;
  apiHost : string;
  deadline : number;
  function_name : string;
  function_version : string;
  namespace : string;
  remaining_time : number;
}.
End LogContext.

(** The record sent to the log sink; [dt] is the clock reading that the
    source prints in ISO format, [data] the properties spread into it. *)
Record LogRecord := {
  dt : number;
  level_string : string;
  message_string : string;
  do_function_context : LogContext.t;
  do_function_event : InvocationEvent;
  data : list (string * value);
}.

(** The argument of [JSON.stringify]. *)
Inductive RequestBody :=
| JSON_Messages (Messages : list IPCInboundSendMessage)
| JSON_LogRecord (log : LogRecord).

Record Headers := {
  Authorization : string;
  Content_Type : string;
}.

Record FetchOptions := {
  body : RequestBody;
  headers : Headers;
  method : string;
}.

Record Request := {
  url : string;
  options : FetchOptions;
}.

Record Response := {
  ok : bool;
  status : number;
  json : outcome value;   (* the completion of [result.json()] *)
}.

(** ** The world of one invocation *)

(** What the invocation cannot decide: the completion of its k-th [fetch]
    ([Throw]: the promise rejects) and the k-th reading of the clock. *)
Record Env := {
  network : nat -> outcome Response;
  clock : nat -> number;
}.

Record World := {
  heap : Heap;
  sent : list Request;   (* the requests issued so far, oldest first *)
  ticks : nat;           (* the clock readings so far *)
}.

Definition M (A : Type) : Type := World -> outcome A * World.

Definition ret {A} (a : A) : M A := fun w => (Return a, w).

Definition throw {A} (e : Error) : M A := fun w => (Throw e, w).

Definition lift {A} (o : outcome A) : M A := fun w => (o, w).

Definition bind {A B} (m : M A) (k : A -> M B) : M B :=
  fun w =>
    match m w with
    | (Return a, w') => k a w'
    | (Throw e, w') => (Throw e, w')
    end.

Definition try_catch {A} (m : M A) (handler : Error -> M A) : M A :=
  fun w =>
    match m w with
    | (Return a, w') => (Return a, w')
    | (Throw e, w') => handler e w'
    end.

Notation "x <- m ;; k" := (bind m (fun x => k))
  (at level 100, m at next level, right associativity).

Definition get_heap : M Heap := fun w => (Return (heap w), w).

Definition set_heap (h : Heap) (w : World) : World :=
  {| heap := h; sent := sent w; ticks := ticks w |}.

(** *** Arrays in the heap *)

Definition elements (h : Heap) (l : loc) : list value :=
  match h !! l with
  | Some xs => xs
  | None => []
  end.

(** [[...a]]: a new array with the elements of [a].  The handler spreads
    arrays only; the iteration of a string is not modelled. *)
Definition spread (a : value) : M value :=
  fun w =>
    match a with
    | VArr l =>
        let l' := fresh (dom (heap w)) in
        (Return (VArr l'), set_heap (<[l' := elements (heap w) l]> (heap w)) w)
    | _ => (Throw (TypeError "Spread syntax requires ...iterable"), w)
    end.

(** [a.sort(comparefn)]: sorts [a] in place and returns it. *)
Definition Array_sort {js : Engine}
    (comparefn : Heap -> value -> value -> outcome (option number))
    (a : value) : M value :=
  fun w =>
    match a with
    | VArr l =>
        match sorted_elements (comparefn (heap w)) (elements (heap w) l) with
        | Return s => (Return a, set_heap (<[l := s]> (heap w)) w)
        | Throw e => (Throw e, w)
        end
    | _ => (Throw (TypeError "sort is not a function"), w)
    end.

(** [a.pop()]: removes the last element of [a] and returns it. *)
Definition Array_pop (a : value) : M value :=
  fun w =>
    match a with
    | VArr l =>
        match last (elements (heap w) l) with
        | Some x =>
            (Return x, set_heap (<[l := removelast (elements (heap w) l)]> (heap w)) w)
        | None => (Return VUndefined, w)
        end
    | _ => (Throw (TypeError "pop is not a function"), w)
    end.

(** ** The handler *)

Record Result := { statusCode : number }.

Record Logger := {
  debug : string -> list (string * value) -> M unit;
  info : string -> list (string * value) -> M unit;
  warn : string -> list (string * value) -> M unit;
  error : string -> list (string * value) -> M unit;
}.

Module messageCodes.
Definition PositionReport : number := num 0.
Definition StartTrack : number := num 10.
Definition StopTrack : number := num 12.
End messageCodes.

Definition trackingMessageCodes : list number :=
  [messageCodes.PositionReport; messageCodes.StartTrack; messageCodes.StopTrack].

(** [trackingMessageCodes.has(v)]: a set of Numbers holds no other value. *)
Definition Set_has (s : list number) (v : value) : bool :=
  match v with
  | VNum n => bool_decide (n ∈ s)
  | _ => false
  end.

(** The table [messageCodeToReceiverText], read at a Number. *)
Definition messageCodeToReceiverText (code : number) : option string :=
  if bool_decide (code = messageCodes.PositionReport) then Some "Location Update"
  else if bool_decide (code = messageCodes.StartTrack) then Some "Tracking Started"
  else if bool_decide (code = messageCodes.StopTrack) then Some "Tracking Stopped"
  else None.

(** [t || d] for a table entry [t] (absent: [undefined]). *)
Definition or_else (t : option string) (d : string) : string :=
  match t with
  | Some s => if String.eqb s "" then d else s
  | None => d
  end.

(** [!s] for a configuration variable or a string *)
Definition falsy (s : option string) : bool :=
  match s with
  | Some s => String.eqb s ""
  | None => true
  end.

Section Handler.
Context {js : Engine} (cfg : Config) (env : Env).

(** [Date.now()] *)
Definition Date_now : M number :=
  fun w =>
    (Return (clock env (ticks w)),
     {| heap := heap w; sent := sent w; ticks := S (ticks w) |}).

(** [fetch(url, options)]: the request is issued, the network decides how
    the promise settles. *)
Definition fetch (url : string) (options : FetchOptions) : M Response :=
  fun w =>
    (network env (length (sent w)),
     {| heap := heap w;
        sent := sent w ++ [{| url := url; options := options |}];
        ticks := ticks w |}).

(** Base64 encoded Basic Auth credentials for the Garmin Inbound API. *)
Definition inboundApiAuth : string :=
  Buffer_toString_base64
    (Buffer_from
       (GARMIN_INBOUND_API_USER cfg +:+ ":" +:+ GARMIN_INBOUND_API_PASS cfg)).

Definition log (message : string) (data : list (string * value))
    (level : string) (event : InvocationEvent) (context : InvocationContext)
    : M unit :=
  if falsy (BETTERSTACK_LOGS_HOST cfg) || falsy (BETTERSTACK_LOGS_BEARER_TOKEN cfg)
  then ret tt
  else
    now <- Date_now ;;
    let log :=
      {| dt := now;
         level_string := level;
         message_string := message;
         do_function_context :=
           {| LogContext.activation_id := activationId context;
              LogContext.apiHost := apiHost context;
              LogContext.deadline := deadline context;
              LogContext.function_name := functionName context;
              LogContext.function_version := functionVersion context;
              LogContext.namespace := namespace context;
              LogContext.remaining_time := getRemainingTimeInMillis context |};
         do_function_event := event;
         data := data |} in
    try_catch
      (let fetchOptions :=
         {| body := JSON_LogRecord log;
            headers :=
              {| Authorization :=
                   "Bearer " +:+ default "" (BETTERSTACK_LOGS_BEARER_TOKEN cfg);
                 Content_Type := "application/json" |};
            method := "POST" |} in
       _ <- fetch ("https://" +:+ default "" (BETTERSTACK_LOGS_HOST cfg)) fetchOptions ;;
       ret tt)
      (fun _ => (* Ignore errors. *) ret tt).

Definition getLogger (event : InvocationEvent) (context : InvocationContext)
    : Logger :=
  {| debug := fun message data => log message data "debug" event context;
     info := fun message data => log message data "info" event context;
     warn := fun message data => log message data "warn" event context;
     error := fun message data => log message data "error" event context |}.

(** Checks if the given request event includes the expected authorization
    token. *)
Definition isAuthorizedRequest (event : InvocationEvent) : bool :=
  let authorization := h ← http event; WebEventHTTP.authorization h in
  if falsy authorization then false
  else
    let encodedToken := String_split " " (default "" authorization) !! 1%nat in
    if falsy encodedToken then false
    else
      let token :=
        Buffer_toString_utf8 (Buffer_from_base64 (default "" encodedToken)) in
      String.eqb token (REQUEST_AUTH_TOKEN cfg +:+ ":").

(** Forwards the given point to the configured tracking receiver device in
    the form of a message with location data embedded. *)
Definition forwardLocationUpdate (text : string) (point : value) : M Response :=
  now <- Date_now ;;
  h <- get_heap ;;
  latitude <- lift (GetV point "latitude") ;;
  lat <- lift (ToString h latitude) ;;
  longitude <- lift (GetV point "longitude") ;;
  lon <- lift (ToString h longitude) ;;
  altitude <- lift (GetV point "altitude") ;;
  speed <- lift (GetV point "speed") ;;
  course <- lift (GetV point "course") ;;
  let message :=
    {| Recipients := [TRACKING_RECEIVER_DEVICE_IMEI cfg];
       Sender := TRACKING_SENDER_INREACH_ADDRESS cfg;
       Timestamp := now;
       Message := text +:+ ": lat " +:+ lat +:+ " lon " +:+ lon;
       ReferencePoint :=
         {| LocationType := "GPSLocation";
            Altitude := altitude;
            Speed := speed;
            Course := course;
            Coordinate := {| Latitude := latitude; Longitude := longitude |} |} |} in
  let fetchOptions :=
    {| body := JSON_Messages [message];
       headers :=
         {| Authorization := "Basic " +:+ inboundApiAuth;
            Content_Type := "application/json" |};
       method := "POST" |} in
  fetch
    ("https://" +:+ GARMIN_INBOUND_API_HOST cfg
       +:+ "/IPCInbound/V1/Messaging.svc/Message")
    fetchOptions.

(** The comparison function of the sort: [(a, b) => a.timeStamp - b.timeStamp]. *)
Definition byTimeStamp (h : Heap) (a b : value) : outcome (option number) :=
  ta <-? GetV a "timeStamp" ;;
  tb <-? GetV b "timeStamp" ;;
  JS_sub h ta tb.

(** The handler from the destructuring of the selected event on (lines
    107-145 of [main]). *)
Definition main_outboundEvent (logger : Logger) (outboundEvent : value)
    : M Result :=
  imei <- lift (GetV outboundEvent "imei") ;;
  messageCode <- lift (GetV outboundEvent "messageCode") ;;
  point <- lift (GetV outboundEvent "point") ;;
  (* Ignore events from other devices except for the configured sender. *)
  if negb (strict_eq_string imei (TRACKING_SENDER_DEVICE_IMEI cfg))
  then ret {| statusCode := num 200 |}
  (* Ignore events that are not tracking related. *)
  else if negb (Set_has trackingMessageCodes messageCode)
  then ret {| statusCode := num 200 |}
  else
    (* Ignore empty location updates. *)
    latitude <- lift (GetV point "latitude") ;;
    zero <- (if strict_eq_number latitude (num 0)
             then longitude <- lift (GetV point "longitude") ;;
                  ret (strict_eq_number longitude (num 0))
             else ret false) ;;
    if (zero : bool)
    then ret {| statusCode := num 200 |}
    else
      _ <- try_catch
             (result <-
                forwardLocationUpdate
                  (or_else
                     (match messageCode with
                      | VNum code => messageCodeToReceiverText code
                      | _ => None
                      end)
                     "Location Update")
                  point ;;
              if negb (ok result)
              then
                rejection <- lift (json result) ;;
                error logger "IPC Inbound request rejected"
                  [("status", VNum (status result)); ("error", rejection)]
              else ret tt)
             (fun err =>
                error logger "Failed to send IPC Inbound request"
                  [("error", VStr (or_else (Some (message err)) "Unknown error"))]) ;;
      ret {| statusCode := num 200 |}.

Definition main (event : InvocationEvent) (context : InvocationContext)
    : M Result :=
  let logger := getLogger event context in
  if negb (isAuthorizedRequest event)
  then ret {| statusCode := num 200 |}
  (* Garmin IPC Outbound requests are sent as POST requests, ignore all
     other methods, and non-HTTP invocations, and messages without any
     events. *)
  else if negb (bool_decide (WebEventHTTP.method <$> http event = Some "POST"))
          || negb (Array_isArray (Events event))
  then ret {| statusCode := num 200 |}
  else
    _ <- debug logger "IPC Outbound request received" [] ;;
    outboundEvent <-
      (copy <- spread (Events event) ;;
       sorted <- Array_sort byTimeStamp copy ;;
       Array_pop sorted) ;;
    if negb (ToBoolean outboundEvent)
    then ret {| statusCode := num 200 |}
    else main_outboundEvent logger outboundEvent.

End Handler.

(** ** An engine for closed examples

    It agrees with ECMAScript on what the examples below convert: numbers
    whose decimal expansion terminates (printed in positional notation, as
    every engine prints them between 1e-6 and 1e21), strings of decimal
    digits, and plain objects. *)

Fixpoint fraction_digits (fuel : nat) (r d : Z) : string :=
  match fuel with
  | O => ""
  | S fuel' =>
      if (r =? 0)%Z then ""
      else pretty (r * 10 / d)%Z +:+ fraction_digits fuel' (r * 10 mod d)%Z d
  end.

Definition decimal (n : number) : string :=
  let p := Qnum n in
  let d := Zpos (Qden n) in
  let a := Z.abs p in
  (if (p <? 0)%Z then "-" else "")
    +:+ pretty (a / d)%Z
    +:+ (if (a mod d =? 0)%Z then ""
         else "." +:+ fraction_digits 20 (a mod d)%Z d).

Fixpoint digits_value (acc : Z) (s : string) : option Z :=
  match s with
  | EmptyString => Some acc
  | String c s' =>
      let n := N_of_ascii c in
      if (48 <=? n)%N && (n <=? 57)%N
      then digits_value (acc * 10 + Z.of_N (n - 48)) s'
      else None
  end.

Definition sample_engine : Engine :=
  {| Number_toString := decimal;
     StringToNumber := fun s => num <$> digits_value 0 s;
     Object_ToString := fun _ _ => Return "[object Object]";
     Object_ToNumber := fun _ _ => Return None |}.

(** ** Observations on a run *)

(** A forward call is a request that carries messages. *)
Definition is_forward (r : Request) : bool :=
  match body (options r) with
  | JSON_Messages _ => true
  | JSON_LogRecord _ => false
  end.

(** The requests that [m] issues when run in [w]. *)
Definition issued {A} (m : M A) (w : World) : list Request :=
  drop (length (sent w)) (sent (m w).2).

(** How [m] completes when run in [w]. *)
Definition completion {A} (m : M A) (w : World) : outcome A := (m w).1.

Definition logging_enabled (cfg : Config) : bool :=
  negb (falsy (BETTERSTACK_LOGS_HOST cfg) || falsy (BETTERSTACK_LOGS_BEARER_TOKEN cfg)).

(** The request of a log call that reads the clock at [now]. *)
Definition log_request (cfg : Config) (message : string)
    (data : list (string * value)) (level : string) (event : InvocationEvent)
    (context : InvocationContext) (now : number) : Request :=
  {| url := "https://" +:+ default "" (BETTERSTACK_LOGS_HOST cfg);
     options :=
       {| body :=
            JSON_LogRecord
              {| dt := now;
                 level_string := level;
                 message_string := message;
                 do_function_context :=
                   {| LogContext.activation_id := activationId context;
                      LogContext.apiHost := apiHost context;
                      LogContext.deadline := deadline context;
                      LogContext.function_name := functionName context;
                      LogContext.function_version := functionVersion context;
                      LogContext.namespace := namespace context;
                      LogContext.remaining_time := getRemainingTimeInMillis context |};
                 do_function_event := event;
                 data := data |};
          headers :=
            {| Authorization :=
                 "Bearer " +:+ default "" (BETTERSTACK_LOGS_BEARER_TOKEN cfg);
               Content_Type := "application/json" |};
          method := "POST" |} |}.

(** The request of a forward call with message [m]. *)
Definition forward_request (cfg : Config) (m : IPCInboundSendMessage) : Request :=
  {| url := "https://" +:+ GARMIN_INBOUND_API_HOST cfg
              +:+ "/IPCInbound/V1/Messaging.svc/Message";
     options :=
       {| body := JSON_Messages [m];
          headers :=
            {| Authorization := "Basic " +:+ inboundApiAuth cfg;
               Content_Type := "application/json" |};
          method := "POST" |} |}.

(** At most one request, and not a forward call: what a log call issues. *)
Definition at_most_one_log (reqs : list Request) : Prop :=
  reqs = [] \/ exists r, reqs = [r] /\ is_forward r = false.

(** At most one request, a forward call built by [forward_request]. *)
Definition at_most_one_forward (cfg : Config) (reqs : list Request) : Prop :=
  reqs = [] \/ exists m, reqs = [forward_request cfg m].

(** The shape of the requests of one invocation: at most one log call, then
    at most one forward call, then at most one log call. *)
Definition main_shape (cfg : Config) (reqs : list Request) : Prop :=
  exists dbg fw lg, reqs = dbg ++ fw ++ lg /\
    at_most_one_log dbg /\ at_most_one_forward cfg fw /\ at_most_one_log lg.

(** ** Event batches *)

(** The [timeStamp] of an event object, when it is a Number. *)
Definition timeStamp_of (v : value) : option number :=
  match v with
  | VObj ps =>
      match assoc "timeStamp" ps with
      | Some (VNum n) => Some n
      | _ => None
      end
  | _ => None
  end.

(** [e] is the event of the batch with the maximum timestamp, the last one
    in input order when several share it: no event before it is later, every
    event after it is strictly earlier. *)
Definition is_latest (evs : list value) (e : value) : Prop :=
  exists before after te,
    evs = before ++ e :: after /\
    timeStamp_of e = Some te /\
    Forall (fun x => exists t, timeStamp_of x = Some t /\ (t <= te)%Qc) before /\
    Forall (fun x => exists t, timeStamp_of x = Some t /\ (t < te)%Qc) after.

(** [x] is not later than [y]. *)
Definition not_later (x y : value) : Prop :=
  exists tx ty, timeStamp_of x = Some tx /\ timeStamp_of y = Some ty /\ (tx <= ty)%Qc.

(** [y] is strictly earlier than the timestamp [tx]. *)
Definition earlier_than (tx : number) (y : value) : bool :=
  match timeStamp_of y with
  | Some t => bool_decide (t < tx)%Qc
  | None => false
  end.

(** The property [k] of an object, [undefined] when it has none. *)
Definition property (v : value) (k : string) : value :=
  match v with
  | VObj ps => default VUndefined (assoc k ps)
  | _ => VUndefined
  end.

Definition is_number (v : value) : bool :=
  match v with
  | VNum _ => true
  | _ => false
  end.

Definition is_object (v : value) : bool :=
  match v with
  | VObj _ => true
  | _ => false
  end.

(** An event of the declared shape, as far as the handler reads it: an
    object with a numeric [timeStamp] and a [point] object with numeric
    [latitude] and [longitude]. *)
Definition is_IPCOutboundEvent (v : value) : bool :=
  is_object v
  && is_number (property v "timeStamp")
  && is_object (property v "point")
  && is_number (property (property v "point") "latitude")
  && is_number (property (property v "point") "longitude").

(** The three content filters, in the words of the specification. *)
Definition passes_filters (cfg : Config) (e : value) : Prop :=
  property e "imei" = VStr (TRACKING_SENDER_DEVICE_IMEI cfg) /\
  (property e "messageCode" = VNum (num 0) \/
   property e "messageCode" = VNum (num 10) \/
   property e "messageCode" = VNum (num 12)) /\
  ~ (property (property e "point") "latitude" = VNum (num 0) /\
     property (property e "point") "longitude" = VNum (num 0)).

(** The label of the message for a message code. *)
Definition receiver_label (code : number) : string :=
  if bool_decide (code = num 10) then "Tracking Started"
  else if bool_decide (code = num 12) then "Tracking Stopped"
  else "Location Update".

(** The message that forwards, at time [now], a point at [lat], [lon] of an
    event with message code [code]. *)
Definition location_message {js : Engine} (cfg : Config) (now : number)
    (code lat lon : number) (altitude speed course : value)
    : IPCInboundSendMessage :=
  {| Recipients := [TRACKING_RECEIVER_DEVICE_IMEI cfg];
     Sender := TRACKING_SENDER_INREACH_ADDRESS cfg;
     Timestamp := now;
     Message :=
       receiver_label code
         +:+ ": lat " +:+ Number_toString lat
         +:+ " lon " +:+ Number_toString lon;
     ReferencePoint :=
       {| LocationType := "GPSLocation";
          Altitude := altitude;
          Speed := speed;
          Course := course;
          Coordinate := {| Latitude := VNum lat; Longitude := VNum lon |} |} |}.

(** The log call that announces a well-shaped request, when the log sink is
    configured. *)
Definition debug_log (cfg : Config) (env : Env) (event : InvocationEvent)
    (context : InvocationContext) (w : World) : list Request :=
  if logging_enabled cfg
  then [log_request cfg "IPC Outbound request received" [] "debug" event
          context (clock env (ticks w))]
  else [].

(** The world after that log call. *)
Definition after_debug_log (cfg : Config) (env : Env) (event : InvocationEvent)
    (context : InvocationContext) (w : World) : World :=
  {| heap := heap w;
     sent := sent w ++ debug_log cfg env event context w;
     ticks := ticks w + length (debug_log cfg env event context w) |}.
(** Further space-separated parts of an authorization header. *)
Definition further_parts (more : list string) : string :=
  foldr (fun p acc => " " +:+ p +:+ acc) "" more.

(** A string without a space: one space-separated part. *)
Definition no_space (s : string) : bool :=
  forallb (fun c => negb (Ascii.eqb c " ")) (list_ascii_of_string s).

(** ** A configuration, an environment and requests for closed examples *)

Module Fixtures.

Definition cfg : Config :=
  {| BETTERSTACK_LOGS_BEARER_TOKEN := Some "bearer";
     BETTERSTACK_LOGS_HOST := Some "logs.example";
     GARMIN_INBOUND_API_HOST := "garmin.example";
     GARMIN_INBOUND_API_USER := "user";
     GARMIN_INBOUND_API_PASS := "pass";
     REQUEST_AUTH_TOKEN := "token";
     TRACKING_SENDER_DEVICE_IMEI := "300000000000001";
     TRACKING_SENDER_INREACH_ADDRESS := "sender@inreach.garmin.com";
     TRACKING_RECEIVER_DEVICE_IMEI := "300000000000002" |}.

(** Every call succeeds; the clock reads 1000, 1001, ... *)
Definition env : Env :=
  {| network := fun _ => Return {| ok := true; status := num 200; json := Return VNull |};
     clock := fun k => num (1000 + Z.of_nat k) |}.

(** The inbound API rejects the forward call. *)
Definition env_rejecting : Env :=
  {| network := fun _ =>
       Return {| ok := false; status := num 422;
                 json := Return (VObj [("Message", VStr "rejected")]) |};
     clock := fun k => num (1000 + Z.of_nat k) |}.

Definition point (lat lon : number) : value :=
  VObj [("latitude", VNum lat); ("longitude", VNum lon);
        ("altitude", VNum (num 120)); ("gpsFix", VNum (num 2));
        ("course", VNum (num 90)); ("speed", VNum (num 4))].

Definition outboundEvent (imei : string) (code ts : Z) (lat lon : number) : value :=
  VObj [("imei", VStr imei); ("messageCode", VNum (num code));
        ("freeText", VStr ""); ("timeStamp", VNum (num ts));
        ("point", point lat lon)].

(** An event of the sender without a [point]. *)
Definition pointless : value :=
  VObj [("imei", VStr "300000000000001"); ("messageCode", VNum (num 0));
        ("timeStamp", VNum (num 100))].

(** The request of the gateway: [Events] is the array at location 1. *)
Definition request (authorization : string) (method : string) : InvocationEvent :=
  {| http := Some {| WebEventHTTP.authorization := Some authorization;
                     WebEventHTTP.method := method;
                     WebEventHTTP.path := "" |};
     Version := VStr "2.0";
     Events := VArr 1%positive |}.

Definition context : InvocationContext :=
  {| activationId := "activation";
     apiHost := "https://faas.example";
     apiKey := "key";
     deadline := num 2000;
     functionName := "tracking-forwarder";
     functionVersion := "0.0.1";
     getRemainingTimeInMillis := num 900;
     namespace := "fn-namespace";
     requestId := "request" |}.

(** The world before the invocation: the batch at location 1, nothing sent. *)
Definition world (evs : list value) : World :=
  {| heap := {[ 1%positive := evs ]}; sent := []; ticks := 0 |}.

Definition sender : string := "300000000000001".

End Fixtures.

(** ** Further observations on the handler *)

(** The requests of one log call made when the clock has been read [t]
    times: one when the log sink is configured, none otherwise. *)
Definition log_call (cfg : Config) (env : Env) (message : string)
    (data : list (string * value)) (level : string) (event : InvocationEvent)
    (context : InvocationContext) (t : nat) : list Request :=
  if logging_enabled cfg
  then [log_request cfg message data level event context (clock env t)]
  else [].

(** The text of the error of a failed forward: [err.message || 'Unknown error']. *)
Definition error_text (err : Error) : string :=
  if String.eqb (message err) "" then "Unknown error" else message err.

(** What the handler logs about the completion [reply] of the forward
    call, when the clock has been read [t] times. *)
Definition forward_report (cfg : Config) (env : Env) (event : InvocationEvent)
    (context : InvocationContext) (reply : outcome Response) (t : nat)
    : list Request :=
  match reply with
  | Return resp =>
      if ok resp then []
      else
        match json resp with
        | Return rejection =>
            log_call cfg env "IPC Inbound request rejected"
              [("status", VNum (status resp)); ("error", rejection)]
              "error" event context t
        | Throw err =>
            log_call cfg env "Failed to send IPC Inbound request"
              [("error", VStr (error_text err))] "error" event context t
        end
  | Throw err =>
      log_call cfg env "Failed to send IPC Inbound request"
        [("error", VStr (error_text err))] "error" event context t
  end.

(** [ToString] of a primitive value. *)
Definition primitive_string {js : Engine} (v : value) : option string :=
  match v with
  | VUndefined => Some "undefined"
  | VNull => Some "null"
  | VBool b => Some (if b then "true" else "false")
  | VNum n => Some (Number_toString n)
  | VStr s => Some s
  | VArr _ | VObj _ => None
  end.

(** The request is an authorized POST whose [Events] is an array of events
    with numeric timestamps, and [e] is the latest of them: the event that
    the handler selects. *)
Definition selects (cfg : Config) (event : InvocationEvent) (w : World)
    (e : value) : Prop :=
  isAuthorizedRequest cfg event = true /\
  WebEventHTTP.method <$> http event = Some "POST" /\
  exists l evs,
    Events event = VArr l /\ heap w !! l = Some evs /\
    Forall (fun y => is_Some (timeStamp_of y)) evs /\
    is_latest evs e.

(** The event is from the configured sender and its code is a tracking
    code: the first two content filters. *)
Definition tracked (cfg : Config) (e : value) : Prop :=
  property e "imei" = VStr (TRACKING_SENDER_DEVICE_IMEI cfg) /\
  (property e "messageCode" = VNum (num 0) \/
   property e "messageCode" = VNum (num 10) \/
   property e "messageCode" = VNum (num 12)).


(** [r] is a record of this invocation sent to the configured log sink, at
    level debug or error. *)
Definition is_log_record (cfg : Config) (event : InvocationEvent)
    (context : InvocationContext) (r : Request) : Prop :=
  logging_enabled cfg = true /\
  exists message data level now,
    r = log_request cfg message data level event context now /\
    (level = "debug" \/ level = "error").


(** ** More environments and events for closed examples *)

Module Cases.

(** The log sink is not configured. *)
Definition cfg_without_sink : Config :=
  {| BETTERSTACK_LOGS_BEARER_TOKEN := None;
     BETTERSTACK_LOGS_HOST := Some "logs.example";
     GARMIN_INBOUND_API_HOST := "garmin.example";
     GARMIN_INBOUND_API_USER := "user";
     GARMIN_INBOUND_API_PASS := "pass";
     REQUEST_AUTH_TOKEN := "token";
     TRACKING_SENDER_DEVICE_IMEI := "300000000000001";
     TRACKING_SENDER_INREACH_ADDRESS := "sender@inreach.garmin.com";
     TRACKING_RECEIVER_DEVICE_IMEI := "300000000000002" |}.

(** Every [fetch] rejects with an error without a message. *)
Definition env_unreachable : Env :=
  {| network := fun _ => Throw {| name := "TypeError"; message := "" |};
     clock := fun k => num (1000 + Z.of_nat k) |}.

(** The inbound API answers 502 with a body that is not JSON. *)
Definition env_garbled : Env :=
  {| network := fun _ =>
       Return {| ok := false; status := num 502;
                 json := Throw {| name := "SyntaxError";
                                  message := "Unexpected token < in JSON" |} |};
     clock := fun k => num (1000 + Z.of_nat k) |}.

Definition post : InvocationEvent := Fixtures.request "Basic dG9rZW46" "POST".

(** A position report of the sender at latitude 10, longitude 20. *)
Definition report : value :=
  Fixtures.outboundEvent Fixtures.sender 0 100 (num 10) (num 20).

(** A position report of the sender whose point is an empty object. *)
Definition report_nowhere : value :=
  VObj [("imei", VStr Fixtures.sender); ("messageCode", VNum (num 0));
        ("timeStamp", VNum (num 100)); ("point", VObj [])].

(** A message of another device without a point. *)
Definition stranger : value :=
  VObj [("imei", VStr "300000000000009"); ("messageCode", VNum (num 0));
        ("timeStamp", VNum (num 100))].

End Cases.


(** ** An engine and an event for conversions that throw *)

Module Conversions.

(** [ToString] of a plain object built by [JSON.parse]: an own [toString]
    property is never callable, and neither an own [valueOf] nor the
    inherited one gives a primitive, so [OrdinaryToPrimitive] throws; every
    other plain object prints as ["[object Object]"]. *)
Definition plain_object_string (h : Heap) (v : value) : outcome string :=
  match v with
  | VObj ps =>
      match assoc "toString" ps with
      | Some _ => Throw (TypeError "Cannot convert object to primitive value")
      | None => Return "[object Object]"
      end
  | _ => Return "[object Object]"
  end.

Definition engine : Engine :=
  {| Number_toString := decimal;
     StringToNumber := fun s => num <$> digits_value 0 s;
     Object_ToString := plain_object_string;
     Object_ToNumber := fun _ _ => Return None |}.

(** A position report of the sender whose latitude cannot be printed. *)
Definition report_unprintable : value :=
  VObj [("imei", VStr Fixtures.sender); ("messageCode", VNum (num 0));
        ("timeStamp", VNum (num 100));
        ("point", VObj [("latitude", VObj [("toString", VNull)]);
                        ("longitude", VNum (num 20))])].

End Conversions.

(** A primitive value: converting it to a Number runs no code of the value. *)
Definition is_primitive (v : value) : bool :=
  match v with
  | VArr _ | VObj _ => false
  | _ => true
  end.

(** An element of a batch that the handler takes through its pipeline
    without an exception: it is not [null], its [timeStamp] (if any) is a
    primitive value, and if it is an event of the configured sender with a
    tracking code, its [point] is neither [undefined] nor [null]. *)
Definition harmless (cfg : Config) (v : value) : Prop :=
  v <> VNull /\
  is_primitive (property v "timeStamp") = true /\
  (tracked cfg v ->
   property v "point" <> VUndefined /\ property v "point" <> VNull).

(** * Properties *)

(** ** Base64 *)

Section Base64Facts.
Local Open Scope N_scope.

Ltac divmod := zify; Z.to_euclidean_division_equations; lia.

Lemma sextet_cases (n : N) :
  n < 64 -> exists k : nat, (k < 64)%nat /\ n = N.of_nat k.
Proof. intros H. exists (N.to_nat n). split; lia. Qed.

Lemma unbase64_char (n : N) : n < 64 -> unbase64 (base64_char n) = Some n.
Proof.
  intros H. destruct (sextet_cases n H) as (k & Hk & ->). clear H.
  do 64 (destruct k as [|k]; [reflexivity|]). lia.
Qed.

Lemma base64_char_not_pad (n : N) :
  n < 64 -> Ascii.eqb (base64_char n) "=" = false.
Proof.
  intros H. destruct (sextet_cases n H) as (k & Hk & ->). clear H.
  do 64 (destruct k as [|k]; [reflexivity|]). lia.
Qed.

Lemma base64_sextets_char (n : N) (s : string) :
  n < 64 ->
  base64_sextets (String (base64_char n) s) = n :: base64_sextets s.
Proof.
  intros H. cbn [base64_sextets].
  rewrite base64_char_not_pad, unbase64_char by assumption. reflexivity.
Qed.

Lemma base64_sextets_pad (s : string) : base64_sextets (String "=" s) = [].
Proof. reflexivity. Qed.

Lemma byte_bounded (x : ascii) : N_of_ascii x < 256.
Proof. apply N_ascii_bounded. Qed.

Lemma list_ind3 {A} (P : list A -> Prop) :
  P [] -> (forall x, P [x]) -> (forall x y, P [x; y]) ->
  (forall x y z l, P l -> P (x :: y :: z :: l)) ->
  forall l, P l.
Proof.
  intros H0 H1 H2 H3.
  assert (forall l, P l /\ (forall x, P (x :: l)) /\ (forall x y, P (x :: y :: l)))
    as H.
  { induction l as [|a l (IH0 & IH1 & IH2)]; repeat split; auto. }
  intros l. apply H.
Qed.

Lemma String_get_elem (s : string) (i : nat) (c : ascii) :
  String.get i s = Some c -> In c (list_ascii_of_string s).
Proof.
  revert i. induction s as [|a s IH]; intros i; [done|].
  destruct i as [|i]; cbn [String.get list_ascii_of_string].
  - intros [= ->]. by left.
  - intros H. right. by apply (IH i).
Qed.

Lemma base64_char_ascii (n : N) : (N_of_ascii (base64_char n) <? 128) = true.
Proof.
  unfold base64_char.
  destruct (String.get (N.to_nat n) base64_alphabet) as [c|] eqn:Hc; [|done].
  apply String_get_elem in Hc.
  assert (forallb (fun c => N_of_ascii c <? 128)
            (list_ascii_of_string base64_alphabet) = true) as Hall
    by reflexivity.
  rewrite forallb_forall in Hall. by apply Hall.
Qed.

(** On an ASCII string every code unit is a byte of the string. *)
Lemma low_bytes_ascii (s : string) :
  forallb (fun c => N_of_ascii c <? 128) (list_ascii_of_string s) = true ->
  low_bytes s = s.
Proof.
  unfold low_bytes. induction s as [|a s IH]; [done|].
  cbn [list_ascii_of_string forallb]. intros [Ha Hs]%andb_true_iff.
  cbn [code_units]. rewrite Ha. cbn [map string_of_list_ascii].
  rewrite (IH Hs). f_equal.
  apply N.ltb_lt in Ha. rewrite N.mod_small by lia. apply ascii_N_embedding.
Qed.

Lemma base64_string_ascii (buf : Buffer) :
  forallb (fun c => N_of_ascii c <? 128)
    (list_ascii_of_string (Buffer_toString_base64 buf)) = true.
Proof.
  induction buf as [|x|x y|x y z buf IH] using list_ind3;
    cbn [Buffer_toString_base64 list_ascii_of_string forallb];
    rewrite ?base64_char_ascii; cbn [andb]; done.
Qed.

Lemma base64_roundtrip (buf : Buffer) :
  Buffer_from_base64 (Buffer_toString_base64 buf) = buf.
Proof.
  unfold Buffer_from_base64.
  rewrite (low_bytes_ascii _ (base64_string_ascii buf)).
  induction buf as [|x|x y|x y z buf IH] using list_ind3.
  - reflexivity.
  - pose proof (byte_bounded x) as Hx.
    cbn [Buffer_toString_base64].
    rewrite !base64_sextets_char, base64_sextets_pad by divmod.
    cbn [base64_bytes]. f_equal.
    rewrite <- (ascii_N_embedding x) at 3. f_equal. divmod.
  - pose proof (byte_bounded x) as Hx. pose proof (byte_bounded y) as Hy.
    cbn [Buffer_toString_base64].
    rewrite !base64_sextets_char, base64_sextets_pad by divmod.
    cbn [base64_bytes]. f_equal; [|f_equal].
    + rewrite <- (ascii_N_embedding x) at 3. f_equal. divmod.
    + rewrite <- (ascii_N_embedding y) at 3. f_equal. divmod.
  - pose proof (byte_bounded x) as Hx. pose proof (byte_bounded y) as Hy.
    pose proof (byte_bounded z) as Hz.
    cbn [Buffer_toString_base64].
    rewrite !base64_sextets_char by divmod.
    cbn [base64_bytes]. rewrite IH. f_equal; [|f_equal; [|f_equal]].
    + rewrite <- (ascii_N_embedding x) at 3. f_equal. divmod.
    + rewrite <- (ascii_N_embedding y) at 3. f_equal. divmod.
    + rewrite <- (ascii_N_embedding z) at 3. f_equal. divmod.
Qed.

End Base64Facts.

Example base64_ex1 :
  Buffer_toString_base64 (Buffer_from "token:") = "dG9rZW46".
Proof. reflexivity. Qed.

Example base64_ex2 :
  Buffer_toString_utf8 (Buffer_from_base64 "dXNlcjpwYXNz") = "user:pass".
Proof. reflexivity. Qed.

Example split_ex : String_split " " "Basic dG9rZW46" = ["Basic"; "dG9rZW46"].
Proof. reflexivity. Qed.

(** The code units of a string with characters of one, two, three and four
    bytes: U+0061, U+0164, U+20AC and U+1F600 (a pair of surrogates). *)
Example code_units_ex :
  code_units "aŤ€😀" = [97; 356; 8364; 55357; 56832]%N.
Proof. reflexivity. Qed.

(** The decoder looks at the low byte of a code unit.  U+0164 and U+0136
    count as [d] and [6]; U+013D and the first surrogate of U+1F600 count
    as [=], which ends the token; U+20AC and U+00E9 are no base64
    characters and are skipped. *)
Example base64_low_bytes :
  map (fun s => Buffer_toString_utf8 (Buffer_from_base64 s))
    ["ŤG9rZW46"; "dG9rZW4Ķ"; "dG9rĽZW46"; "😀dG9rZW46"; "dG9r€ZW46"; "édG9rZW46"]
  = ["token:"; "token:"; "tok"; ""; "token:"; "token:"].
Proof. reflexivity. Qed.

(** ** The monad and the log sink *)

Section Runs.
Context {js : Engine} (cfg : Config) (env : Env).

Lemma log_eq message data level event context (w : World) :
  log cfg env message data level event context w =
  if logging_enabled cfg
  then (Return tt,
        {| heap := heap w;
           sent := sent w ++ [log_request cfg message data level event context
                                (clock env (ticks w))];
           ticks := S (ticks w) |})
  else (Return tt, w).
Proof.
  unfold log, logging_enabled.
  destruct (falsy (BETTERSTACK_LOGS_HOST cfg) || falsy (BETTERSTACK_LOGS_BEARER_TOKEN cfg));
    [reflexivity|].
  unfold bind, try_catch, Date_now, fetch, ret. cbn [heap sent ticks negb].
  destruct (network env _); reflexivity.
Qed.

End Runs.

Ltac run_step :=
  match goal with
  | |- context [log _ _ _ _ _ _ _ _] => rewrite log_eq
  | |- context [match ?x with _ => _ end] =>
      lazymatch x with
      | context [match _ with _ => _ end] => fail
      | _ => destruct x eqn:?
      end
  end.

Ltac run := repeat (cbn [heap sent ticks fst snd error debug]; try run_step).

Section Traces.
Context {js : Engine} (cfg : Config) (env : Env).

Lemma is_forward_log_request message data level event context now :
  is_forward (log_request cfg message data level event context now) = false.
Proof. reflexivity. Qed.

Lemma is_forward_forward_request m : is_forward (forward_request cfg m) = true.
Proof. reflexivity. Qed.

Ltac trace_done :=
  cbn [heap sent ticks fst snd];
  repeat rewrite <- app_assoc; cbn [app];
  split; [reflexivity |];
  first
    [ exists []; split; [rewrite app_nil_r; reflexivity |]
    | eexists; split; [reflexivity |] ].

Ltac shape_done :=
  first
    [ exists [], []; repeat split; left; reflexivity
    | eexists [], [_]; repeat split;
      [left; reflexivity | right; eexists; split; reflexivity]
    | eexists [_], []; repeat split;
      [right; eexists; reflexivity | left; reflexivity]
    | eexists [_], [_]; repeat split;
      [right; eexists; reflexivity | right; eexists; split; reflexivity] ].

(** Whatever the selected event is, the rest of the handler leaves the heap
    alone and issues at most one forward call, then at most one log call. *)
Lemma main_outboundEvent_trace event context (e : value) (w : World) :
  let r := main_outboundEvent cfg env (getLogger cfg env event context) e w in
  heap r.2 = heap w /\
  exists reqs, sent r.2 = sent w ++ reqs /\
    exists fw lg, reqs = fw ++ lg /\
      at_most_one_forward cfg fw /\ at_most_one_log lg.
Proof.
  destruct w as [h s t]. cbv zeta.
  unfold main_outboundEvent, forwardLocationUpdate, getLogger, bind, try_catch,
    lift, ret, get_heap, Date_now, fetch.
  run; trace_done; shape_done.
Qed.

End Traces.

Section MainTrace.
Context {js : Engine} (cfg : Config) (env : Env).

(** The three array operations of the selection work on the copy: the heap
    they leave extends the heap they found. *)
Lemma selection_heap (a : value) (w : World) :
  let r := (copy <- spread a ;;
            sorted <- Array_sort byTimeStamp copy ;;
            Array_pop sorted) w in
  heap w ⊆ heap r.2 /\ sent r.2 = sent w /\ ticks r.2 = ticks w.
Proof.
  destruct w as [h s t]. cbv zeta.
  unfold bind, spread, Array_sort, Array_pop, set_heap. cbn [heap sent ticks].
  assert (h !! fresh (dom h) = None) as Hfresh
    by (apply not_elem_of_dom, is_fresh).
  destruct a; cbn [snd heap sent ticks]; try done.
  destruct (sorted_elements _ _) as [srt|err]; cbn [snd heap sent ticks].
  - destruct (last _); cbn [snd heap sent ticks]; repeat split;
      rewrite ?insert_insert_eq; by apply insert_subseteq.
  - repeat split. by apply insert_subseteq.
Qed.

Lemma main_shape_log_only (dbg : list Request) :
  at_most_one_log dbg -> main_shape cfg dbg.
Proof.
  intros H. exists dbg, [], []. rewrite app_nil_r. repeat split; done || by left.
Qed.

(** Whatever the invocation is, the handler extends the heap and issues at
    most one log call, then at most one forward call, then at most one log
    call. *)
Lemma main_trace event context (w : World) o w' :
  main cfg env event context w = (o, w') ->
  heap w ⊆ heap w' /\ exists reqs, sent w' = sent w ++ reqs /\ main_shape cfg reqs.
Proof.
  assert (heap w ⊆ heap w /\ exists reqs, sent w = sent w ++ reqs /\ main_shape cfg reqs)
    as Hidle.
  { split; [done|]. exists []. split; [by rewrite app_nil_r|].
    apply main_shape_log_only. by left. }
  unfold main.
  destruct (negb (isAuthorizedRequest cfg event)); [by intros [= <- <-]|].
  destruct (_ || _); [by intros [= <- <-]|].
  clear Hidle. unfold bind at 1. cbn [debug getLogger]. rewrite log_eq.
  set (w1 := {| heap := heap w;
                sent := sent w ++ [log_request cfg "IPC Outbound request received"
                                     [] "debug" event context (clock env (ticks w))];
                ticks := S (ticks w) |}).
  assert (exists dbg w1', (if logging_enabled cfg then (Return tt, w1) else (Return tt, w))
                          = (Return tt, w1') /\ heap w1' = heap w /\
                          sent w1' = sent w ++ dbg /\ at_most_one_log dbg)
    as (dbg & w1' & -> & Hh1 & Hs1 & Hdbg).
  { destruct (logging_enabled cfg).
    - eexists _, w1. repeat split. right. eexists. split; reflexivity.
    - exists [], w. repeat split; [by rewrite app_nil_r | by left]. }
  clear w1. unfold bind at 1.
  pose proof (selection_heap (Events event) w1') as Hsel. cbv zeta in Hsel.
  destruct ((copy <- spread (Events event) ;;
             sorted <- Array_sort byTimeStamp copy ;;
             Array_pop sorted) w1') as [[e|err] w2];
    cbn [snd] in Hsel; destruct Hsel as (Hh2 & Hs2 & _); rewrite Hh1 in Hh2.
  - destruct (negb (ToBoolean e)).
    + intros [= <- <-]. split; [done|]. exists dbg. rewrite Hs2, Hs1.
      split; [done|]. by apply main_shape_log_only.
    + intros Hrun.
      pose proof (main_outboundEvent_trace cfg env event context e w2) as Hrest.
      cbv zeta in Hrest. rewrite Hrun in Hrest. cbn [snd] in Hrest.
      destruct Hrest as (Hh3 & reqs & Hs3 & fw & lg & -> & Hfw & Hlg).
      split; [by rewrite Hh3|].
      exists (dbg ++ fw ++ lg). rewrite Hs3, Hs2, Hs1, <- app_assoc.
      split; [done|]. by exists dbg, fw, lg.
  - intros [= <- <-]. split; [done|]. exists dbg. rewrite Hs2, Hs1.
    split; [done|]. by apply main_shape_log_only.
Qed.

End MainTrace.

(** ** The selection of the latest event *)

Section Selection.
Context {js : Engine}.

Lemma num_0 : num 0 = 0%Qc.
Proof. by apply Qc_is_canon. Qed.

Lemma byTimeStamp_numbers (h : Heap) (a b : value) (ta tb : number) :
  timeStamp_of a = Some ta -> timeStamp_of b = Some tb ->
  byTimeStamp h a b = Return (Some (ta - tb)%Qc).
Proof.
  unfold timeStamp_of, byTimeStamp. intros Ha Hb.
  destruct a as [| | | | | |pa]; try done. destruct b as [| | | | | |pb]; try done.
  cbn [GetV obind].
  destruct (assoc "timeStamp" pa) as [[]|]; try done.
  destruct (assoc "timeStamp" pb) as [[]|]; try done.
  by simplify_eq/=.
Qed.

Lemma comes_after_difference (ta tb : number) :
  comes_after (Some (ta - tb)%Qc) = bool_decide (tb < ta)%Qc.
Proof.
  unfold comes_after. rewrite num_0. apply bool_decide_ext.
  unfold Qcminus. symmetry. apply Qclt_minus_iff.
Qed.

Lemma last_cons_nonempty {A} (y : A) (l : list A) :
  l <> [] -> last (y :: l) = last l.
Proof. destruct l; [done|]. intros _. apply last_cons_cons. Qed.

Lemma sort_insert_numbers (h : Heap) (x : value) (tx : number) (s : list value) :
  timeStamp_of x = Some tx ->
  Forall (fun y => is_Some (timeStamp_of y)) s ->
  exists r,
    sort_insert (byTimeStamp h) x s = Return r /\
    (forall y, y ∈ r <-> y = x \/ y ∈ s) /\
    last r = if forallb (earlier_than tx) s then Some x else last s.
Proof.
  intros Hx. induction 1 as [|y s [ty Hy] Hs (r & Hr & Hin & Hlast)].
  - exists [x]. repeat split; set_solver.
  - cbn [sort_insert forallb]. rewrite (byTimeStamp_numbers h x y tx ty) by done.
    cbn [obind]. rewrite comes_after_difference.
    unfold earlier_than at 1. rewrite Hy.
    destruct (bool_decide (ty < tx)%Qc); cbn [andb].
    + rewrite Hr. cbn [obind]. exists (y :: r). split; [done|]. split.
      * intros z. rewrite !elem_of_cons, Hin. tauto.
      * assert (r <> []) as Hne.
        { intros ->. assert (x ∈ []) as Hnil by (apply Hin; by left).
          by apply elem_of_nil in Hnil. }
        rewrite (last_cons_nonempty y r Hne), Hlast.
        destruct s as [|y' s']; [done|].
        destruct (forallb _ _); [done|]. by rewrite last_cons_cons.
    + exists (x :: y :: s). split; [done|]. split.
      * intros z. rewrite !elem_of_cons. tauto.
      * by rewrite last_cons_cons.
Qed.

Lemma is_latest_bound (evs : list value) (e y : value) (te ty : number) :
  is_latest evs e -> timeStamp_of e = Some te -> y ∈ evs ->
  timeStamp_of y = Some ty -> (ty <= te)%Qc.
Proof.
  intros (before & after & te' & -> & He & Hb & Ha) He' Hin Hy.
  assert (te' = te) as -> by congruence.
  rewrite elem_of_app, elem_of_cons in Hin. destruct Hin as [Hin|[->|Hin]].
  - rewrite Forall_forall in Hb. destruct (Hb y Hin) as (t & Ht & Hle).
    by simplify_eq.
  - simplify_eq. apply Qcle_refl.
  - rewrite Forall_forall in Ha. destruct (Ha y Hin) as (t & Ht & Hlt).
    simplify_eq. by apply Qclt_le_weak.
Qed.

Lemma forallb_false_elem {A} (f : A -> bool) (l : list A) :
  forallb f l = false -> exists y, y ∈ l /\ f y = false.
Proof.
  induction l as [|x l IH]; [done|]. cbn [forallb].
  destruct (f x) eqn:Hx; cbn [andb].
  - intros (y & Hy & Hf)%IH. exists y. split; [by right | done].
  - intros _. exists x. split; [by left | done].
Qed.

Lemma sort_list_numbers (h : Heap) (l : list value) :
  Forall (fun y => is_Some (timeStamp_of y)) l ->
  exists s,
    sort_list (byTimeStamp h) l = Return s /\
    (forall y, y ∈ s <-> y ∈ l) /\
    (l <> [] -> exists e, last s = Some e /\ is_latest l e).
Proof.
  induction 1 as [|x l [tx Hx] Hl (s & Hs & Hin & Hlast)].
  - exists []. by repeat split.
  - cbn [sort_list]. rewrite Hs. cbn [obind].
    assert (Forall (fun y => is_Some (timeStamp_of y)) s) as Hs_num.
    { rewrite Forall_forall in Hl |- *. intros y Hy. apply Hl, Hin, Hy. }
    destruct (sort_insert_numbers h x tx s Hx Hs_num) as (r & Hr & Hinr & Hlastr).
    exists r. split; [done|]. split.
    { intros y. rewrite Hinr, elem_of_cons, Hin. tauto. }
    intros _. destruct (forallb (earlier_than tx) s) eqn:Hall.
    + exists x. split; [done|]. exists [], l, tx.
      split; [done|]. split; [done|]. split; [constructor|].
      rewrite Forall_forall. intros y Hy.
      apply Hin in Hy. rewrite forallb_forall in Hall.
      apply list_elem_of_In, Hall in Hy. unfold earlier_than in Hy.
      destruct (timeStamp_of y) as [t|]; [|done].
      exists t. split; [done|]. by apply bool_decide_eq_true in Hy.
    + assert (l <> []) as Hne.
      { intros ->. assert (s = []) as ->; [|done].
        destruct s as [|z s]; [done|].
        assert (z ∈ []) as Hnil by (apply Hin; by left).
        by apply elem_of_nil in Hnil. }
      destruct (Hlast Hne) as (e & He & Hlatest).
      exists e. split; [congruence|].
      destruct (forallb_false_elem _ _ Hall) as (y & Hy & Hnot).
      apply Hin in Hy. rewrite Forall_forall in Hl.
      destruct (Hl y Hy) as [ty Hty].
      unfold earlier_than in Hnot. rewrite Hty in Hnot.
      apply bool_decide_eq_false, Qcnot_lt_le in Hnot.
      destruct Hlatest as (before & after & te & -> & Hte & Hb & Ha).
      assert (ty <= te)%Qc as Hle.
      { eapply (is_latest_bound (before ++ e :: after) e y); try done.
        by exists before, after, te. }
      exists (x :: before), after, te. repeat split; try done.
      constructor; [|done]. exists tx. split; [done|]. by eapply Qcle_trans.
Qed.

Lemma numbers_defined (l : list value) :
  Forall (fun y => is_Some (timeStamp_of y)) l ->
  filter (fun v => is_undefined v = false) l = l /\
  filter (fun v => is_undefined v = true) l = [].
Proof.
  induction 1 as [|x l [tx Hx] Hl [IH1 IH2]]; [done|].
  destruct x; try done.
  rewrite filter_cons_True by done. rewrite filter_cons_False by done.
  by rewrite IH1, IH2.
Qed.

Lemma sorted_elements_numbers (h : Heap) (l : list value) :
  Forall (fun y => is_Some (timeStamp_of y)) l ->
  exists s,
    sorted_elements (byTimeStamp h) l = Return s /\
    (forall y, y ∈ s <-> y ∈ l) /\
    (l <> [] -> exists e, last s = Some e /\ is_latest l e).
Proof.
  intros Hl. unfold sorted_elements.
  destruct (numbers_defined l Hl) as [-> ->].
  destruct (sort_list_numbers h l Hl) as (s & -> & Hin & Hlast).
  exists s. cbn [obind]. by rewrite app_nil_r.
Qed.

End Selection.

Section SortedFacts.
Context {js : Engine}.

Lemma sort_insert_sorted (h : Heap) (x : value) (tx : number) (s : list value) :
  timeStamp_of x = Some tx ->
  Forall (fun y => is_Some (timeStamp_of y)) s ->
  StronglySorted not_later s ->
  exists r,
    sort_insert (byTimeStamp h) x s = Return r /\
    r ≡ₚ x :: s /\ StronglySorted not_later r.
Proof.
  intros Hx Hnum. induction 1 as [|y s Hsorted IH Hy].
  - exists [x]. repeat split; repeat constructor.
  - apply Forall_cons in Hnum as [[ty Hty] Hnum].
    cbn [sort_insert]. rewrite (byTimeStamp_numbers h x y tx ty) by done.
    cbn [obind]. rewrite comes_after_difference.
    destruct (bool_decide (ty < tx)%Qc) eqn:Hlt.
    + apply bool_decide_eq_true in Hlt.
      destruct (IH Hnum) as (r & -> & Hperm & Hr). cbn [obind].
      exists (y :: r). split; [done|]. split.
      * rewrite Hperm. apply Permutation_swap.
      * constructor; [done|]. rewrite Hperm. constructor; [|done].
        exists ty, tx. repeat split; try done. by apply Qclt_le_weak.
    + apply bool_decide_eq_false, Qcnot_lt_le in Hlt.
      exists (x :: y :: s). split; [done|]. split; [done|].
      constructor; [by constructor|]. constructor.
      * by exists tx, ty.
      * eapply Forall_impl; [exact Hy|].
        intros z (ty' & tz & Hty' & Htz & Hle). simplify_eq.
        exists tx, tz. repeat split; try done. by eapply Qcle_trans.
Qed.

(** The sort of the model sorts: on events with numeric timestamps its
    result is a permutation of the array in ascending order of timestamp. *)
Lemma sort_list_sorted (h : Heap) (l : list value) :
  Forall (fun y => is_Some (timeStamp_of y)) l ->
  exists s,
    sort_list (byTimeStamp h) l = Return s /\
    s ≡ₚ l /\ StronglySorted not_later s.
Proof.
  induction 1 as [|x l [tx Hx] Hl (s & Hs & Hperm & Hsorted)].
  - exists []. repeat split; constructor.
  - cbn [sort_list]. rewrite Hs. cbn [obind].
    destruct (sort_insert_sorted h x tx s Hx) as (r & Hr & Hpermr & Hsortedr);
      [by rewrite Hperm | done |].
    exists r. split; [done|]. split; [|done]. by rewrite Hpermr, Hperm.
Qed.

End SortedFacts.


(** ** The content filters and the forward call *)

Section Filters.
Context {js : Engine} (cfg : Config) (env : Env).

Lemma strict_eq_string_spec (v : value) (s : string) :
  strict_eq_string v s = true <-> v = VStr s.
Proof.
  destruct v; cbn; try (split; [done | by intros [=]]).
  rewrite String.eqb_eq. split; [by intros -> | by intros [=]].
Qed.

Lemma strict_eq_number_spec (v : value) (n : number) :
  strict_eq_number v n = true <-> v = VNum n.
Proof.
  destruct v; cbn; try (split; [done | by intros [=]]).
  rewrite bool_decide_eq_true. split; [by intros -> | by intros [=]].
Qed.

Lemma Set_has_spec (v : value) :
  Set_has trackingMessageCodes v = true <->
  v = VNum (num 0) \/ v = VNum (num 10) \/ v = VNum (num 12).
Proof.
  destruct v; cbn; try (split; [done | by intros [[=]|[[=]|[=]]]]).
  rewrite bool_decide_eq_true. unfold trackingMessageCodes.
  rewrite !elem_of_cons, elem_of_nil.
  unfold messageCodes.PositionReport, messageCodes.StartTrack, messageCodes.StopTrack.
  split.
  - intros [->|[->|[->|[]]]]; auto.
  - intros [[=]|[[=]|[=]]]; auto.
Qed.

Lemma GetV_object (ps : list (string * value)) (k : string) :
  GetV (VObj ps) k = Return (property (VObj ps) k).
Proof. reflexivity. Qed.

Lemma receiver_label_table (c : number) :
  c ∈ trackingMessageCodes ->
  or_else (messageCodeToReceiverText c) "Location Update" = receiver_label c.
Proof.
  unfold trackingMessageCodes. rewrite !elem_of_cons, elem_of_nil.
  intros [->|[->|[->|[]]]]; reflexivity.
Qed.

Lemma is_IPCOutboundEvent_inv (e : value) :
  is_IPCOutboundEvent e = true ->
  exists ps ts pp lat lon,
    e = VObj ps /\ property e "timeStamp" = VNum ts /\
    property e "point" = VObj pp /\
    property (VObj pp) "latitude" = VNum lat /\
    property (VObj pp) "longitude" = VNum lon.
Proof.
  unfold is_IPCOutboundEvent. rewrite !andb_true_iff.
  intros ((((He & Hts) & Hp) & Hlat) & Hlon).
  destruct e as [| | | | | |ps]; try done.
  destruct (property (VObj ps) "timeStamp") as [| | |ts| | |] eqn:Ets; try done.
  destruct (property (VObj ps) "point") as [| | | | | |pp] eqn:Ep; try done.
  destruct (property (VObj pp) "latitude") as [| | |lat| | |] eqn:Elat; try done.
  destruct (property (VObj pp) "longitude") as [| | |lon| | |] eqn:Elon; try done.
  by exists ps, ts, pp, lat, lon.
Qed.

Lemma is_IPCOutboundEvent_timeStamp (e : value) :
  is_IPCOutboundEvent e = true -> is_Some (timeStamp_of e).
Proof.
  intros (ps & ts & pp & lat & lon & -> & Hts & _)%is_IPCOutboundEvent_inv.
  unfold timeStamp_of. cbn [property] in Hts.
  destruct (assoc "timeStamp" ps) as [v|]; cbn in Hts; [|done].
  subst v. by eexists.
Qed.

(** An event that fails a filter: the handler stops, nothing is issued. *)
Lemma main_outboundEvent_filtered event context (e : value) (w : World) :
  is_IPCOutboundEvent e = true -> ~ passes_filters cfg e ->
  main_outboundEvent cfg env (getLogger cfg env event context) e w =
  (Return {| statusCode := num 200 |}, w).
Proof.
  intros (ps & ts & pp & lat & lon & -> & Hts & Hp & Hlat & Hlon)%is_IPCOutboundEvent_inv
    Hfail.
  unfold passes_filters in Hfail. rewrite Hp, Hlat, Hlon in Hfail.
  unfold main_outboundEvent, bind, lift, ret. rewrite !GetV_object, Hp.
  destruct (strict_eq_string _ _) eqn:Himei; [|done]. cbn [negb].
  destruct (Set_has _ _) eqn:Hcode; [|done]. cbn [negb].
  rewrite !GetV_object, Hlat, Hlon.
  apply strict_eq_string_spec in Himei. apply Set_has_spec in Hcode.
  destruct (strict_eq_number (VNum lat) (num 0)) eqn:Hz1;
    [destruct (strict_eq_number (VNum lon) (num 0)) eqn:Hz2|]; [done| |].
  - exfalso. apply Hfail. repeat split; try done.
    intros [_ Hz]. apply strict_eq_number_spec in Hz. congruence.
  - exfalso. apply Hfail. repeat split; try done.
    intros [Hz _]. apply strict_eq_number_spec in Hz. congruence.
Qed.

(** An event that passes the filters: one forward call, then at most one
    log call (none when the call succeeds), and the handler returns 200. *)
Lemma main_outboundEvent_forwarded event context (e : value) (w : World)
    (code lat lon : number) :
  is_IPCOutboundEvent e = true -> passes_filters cfg e ->
  property e "messageCode" = VNum code ->
  property (property e "point") "latitude" = VNum lat ->
  property (property e "point") "longitude" = VNum lon ->
  exists lg,
    main_outboundEvent cfg env (getLogger cfg env event context) e w =
    (Return {| statusCode := num 200 |},
     {| heap := heap w;
        sent := sent w
                  ++ forward_request cfg
                       (location_message cfg (clock env (ticks w)) code lat lon
                          (property (property e "point") "altitude")
                          (property (property e "point") "speed")
                          (property (property e "point") "course"))
                  :: lg;
        ticks := S (ticks w) + length lg |}) /\
    at_most_one_log lg /\
    (match network env (length (sent w)) with
     | Return resp => ok resp = true
     | Throw _ => False
     end -> lg = []).
Proof.
  intros (ps & ts & pp & lat' & lon' & -> & Hts & Hp & Hlat & Hlon)%is_IPCOutboundEvent_inv
    (Himei & Hcode & Hzero) Hc Hla Hlo.
  rewrite Hp in Hla, Hlo, Hzero |- *.
  assert (code ∈ trackingMessageCodes) as Hin.
  { rewrite Hc in Hcode. unfold trackingMessageCodes.
    rewrite !elem_of_cons.
    destruct Hcode as [[= ->]|[[= ->]|[= ->]]]; auto. }
  destruct w as [h s t].
  unfold main_outboundEvent, forwardLocationUpdate, bind, lift, ret, try_catch,
    get_heap, Date_now, fetch.
  rewrite !GetV_object, Hp, Hc, Himei. rewrite !GetV_object, Hla, Hlo.
  cbn [heap sent ticks ToString strict_eq_string Set_has].
  rewrite String.eqb_refl, (bool_decide_eq_true_2 _ Hin). cbn [negb].
  rewrite (receiver_label_table code Hin).
  assert ((if strict_eq_number (VNum lat) (num 0)
           then strict_eq_number (VNum lon) (num 0) else false) = false) as Hz.
  { destruct (strict_eq_number (VNum lat) (num 0)) eqn:Hz1; [|done].
    destruct (strict_eq_number (VNum lon) (num 0)) eqn:Hz2; [|done].
    exfalso. apply Hzero.
    apply strict_eq_number_spec in Hz1, Hz2. by rewrite Hla, Hlo. }
  destruct (strict_eq_number (VNum lat) (num 0));
    [rewrite Hz|]; cbn [error getLogger]; cbv beta; cbn [heap sent ticks].
  all: destruct (network env (length s)) as [resp|err];
    [destruct (ok resp); cbn [negb]; [|destruct (json resp)] |];
    rewrite ?log_eq; cbn [heap sent ticks];
    try destruct (logging_enabled cfg).
  all: first
    [ exists []; split; [by rewrite Nat.add_0_r|];
      split; [by left | done]
    | eexists [_]; rewrite <- app_assoc; cbn [app length];
      split; [by rewrite Nat.add_1_r|];
      split; [right; eexists; split; reflexivity | done] ].
Qed.

End Filters.

Section SelectionRun.
Context {js : Engine}.

Lemma is_latest_elem (evs : list value) (e : value) :
  is_latest evs e -> e ∈ evs.
Proof. intros (before & after & te & -> & _). set_solver. Qed.

(** The latest event of a batch is one position of the batch. *)
Lemma is_latest_unique (evs : list value) (e e' : value) :
  is_latest evs e -> is_latest evs e' -> e = e'.
Proof.
  intros (b & a & te & -> & Hte & Hb & Ha) (b' & a' & te' & Heq & Hte' & Hb' & Ha').
  rewrite Forall_forall in Hb, Ha, Hb', Ha'.
  destruct (decide (length b = length b')) as [Hlen|Hlen].
  - apply app_inj_1 in Heq as [_ Heq]; [|done]. congruence.
  - exfalso.
    assert (length b < length b' \/ length b' < length b)%nat as [Hlt|Hlt] by lia.
    + (* e lies before e' and e' after e *)
      assert (e ∈ b') as Hin.
      { apply list_elem_of_lookup. exists (length b).
        rewrite <- (lookup_app_l b' (e' :: a')) by done.
        rewrite <- Heq. by rewrite list_lookup_middle. }
      assert (e' ∈ a) as Hin'.
      { apply list_elem_of_lookup. exists (length b' - S (length b))%nat.
        assert ((b ++ e :: a) !! length b' = Some e') as Hl
          by (rewrite Heq; by rewrite list_lookup_middle).
        rewrite lookup_app_r in Hl by lia.
        replace (length b' - length b)%nat
          with (S (length b' - S (length b)))%nat in Hl by lia.
        done. }
      destruct (Hb' e Hin) as (t & Ht & Hle).
      destruct (Ha e' Hin') as (t' & Ht' & Hlt').
      simplify_eq. by eapply Qclt_not_le.
    + assert (e' ∈ b) as Hin.
      { apply list_elem_of_lookup. exists (length b').
        rewrite <- (lookup_app_l b (e :: a)) by done.
        rewrite Heq. by rewrite list_lookup_middle. }
      assert (e ∈ a') as Hin'.
      { apply list_elem_of_lookup. exists (length b - S (length b'))%nat.
        assert ((b' ++ e' :: a') !! length b = Some e) as Hl
          by (rewrite <- Heq; by rewrite list_lookup_middle).
        rewrite lookup_app_r in Hl by lia.
        replace (length b - length b')%nat
          with (S (length b - S (length b')))%nat in Hl by lia.
        done. }
      destruct (Hb e' Hin) as (t & Ht & Hle).
      destruct (Ha' e Hin') as (t' & Ht' & Hlt').
      simplify_eq. by eapply Qclt_not_le.
Qed.

Lemma elements_lookup (h : Heap) (l : loc) (xs : list value) :
  h !! l = Some xs -> elements h l = xs.
Proof. unfold elements. by intros ->. Qed.

Lemma elements_insert (h : Heap) (l : loc) (xs : list value) :
  elements (<[l := xs]> h) l = xs.
Proof. unfold elements. by rewrite lookup_insert_eq. Qed.

(** The selection on a batch of events with numeric timestamps. *)
Lemma selection_numbers (l : loc) (w : World) :
  Forall (fun y => is_Some (timeStamp_of y)) (elements (heap w) l) ->
  exists w2,
    heap w ⊆ heap w2 /\ sent w2 = sent w /\ ticks w2 = ticks w /\
    match elements (heap w) l with
    | [] =>
        (copy <- spread (VArr l) ;;
         sorted <- Array_sort byTimeStamp copy ;;
         Array_pop sorted) w = (Return VUndefined, w2)
    | _ :: _ =>
        exists e,
          (copy <- spread (VArr l) ;;
           sorted <- Array_sort byTimeStamp copy ;;
           Array_pop sorted) w = (Return e, w2) /\
          is_latest (elements (heap w) l) e
    end.
Proof.
  intros Hnum.
  pose proof (selection_heap (VArr l) w) as Hheap. cbv zeta in Hheap.
  assert (exists o, (copy <- spread (VArr l) ;;
                     sorted <- Array_sort byTimeStamp copy ;;
                     Array_pop sorted) w
                    = (o, ((copy <- spread (VArr l) ;;
                            sorted <- Array_sort byTimeStamp copy ;;
                            Array_pop sorted) w).2) /\
                    match elements (heap w) l with
                    | [] => o = Return VUndefined
                    | _ :: _ => exists e, o = Return e /\ is_latest (elements (heap w) l) e
                    end) as (o & Hrun & Ho).
  { clear Hheap. destruct w as [h s t]. cbn [heap] in *.
    unfold bind, spread, Array_sort, Array_pop, set_heap.
    cbn [heap sent ticks]. rewrite !elements_insert.
    destruct (sorted_elements_numbers (<[fresh (dom h) := elements h l]> h)
                (elements h l) Hnum) as (srt & -> & Hin & Hlast).
    cbn [heap sent ticks]. rewrite !elements_insert.
    destruct (elements h l) as [|x evs].
    - assert (srt = []) as ->.
      { destruct srt as [|z srt]; [done|].
        assert (z ∈ []) as Hnil by (apply Hin; by left).
        by apply elem_of_nil in Hnil. }
      by eexists.
    - destruct Hlast as (e & -> & Hlatest); [done|].
      eexists. split; [reflexivity|]. by exists e. }
  eexists. split; [apply Hheap|]. split; [apply Hheap|]. split; [apply Hheap|].
  destruct (elements (heap w) l); [by rewrite Hrun at 1; subst o|].
  destruct Ho as (e & -> & He). by exists e.
Qed.

End SelectionRun.

(** ** The handler on well-shaped requests *)

Section MainRuns.
Context {js : Engine} (cfg : Config) (env : Env).

Lemma is_latest_truthy (evs : list value) (e : value) :
  is_latest evs e -> ToBoolean e = true.
Proof.
  intros (_ & _ & te & _ & Hte & _). by destruct e.
Qed.

Lemma main_well_shaped event context (l : loc) (w : World) :
  isAuthorizedRequest cfg event = true ->
  WebEventHTTP.method <$> http event = Some "POST" ->
  Events event = VArr l ->
  main cfg env event context w =
  (outboundEvent <-
     (copy <- spread (VArr l) ;;
      sorted <- Array_sort byTimeStamp copy ;;
      Array_pop sorted) ;;
   if negb (ToBoolean outboundEvent)
   then ret {| statusCode := num 200 |}
   else main_outboundEvent cfg env (getLogger cfg env event context) outboundEvent)
    (after_debug_log cfg env event context w).
Proof.
  intros Hauth Hpost Hevents.
  unfold main. rewrite Hauth, Hpost, Hevents. cbn [negb Array_isArray orb].
  rewrite bool_decide_eq_true_2 by done. cbn [negb orb].
  unfold bind at 1. cbn [debug getLogger]. rewrite log_eq.
  unfold after_debug_log, debug_log.
  destruct (logging_enabled cfg); cbn [length app].
  - by rewrite Nat.add_1_r.
  - rewrite Nat.add_0_r, app_nil_r. by destruct w.
Qed.

(** An authorized POST with an array of events with numeric timestamps:
    after the debug log call and the selection on a copy, the handler goes
    on with the latest event alone. *)
Lemma main_selects event context (l : loc) (w : World) :
  isAuthorizedRequest cfg event = true ->
  WebEventHTTP.method <$> http event = Some "POST" ->
  Events event = VArr l ->
  Forall (fun y => is_Some (timeStamp_of y)) (elements (heap w) l) ->
  exists w2,
    heap w ⊆ heap w2 /\
    sent w2 = sent w ++ debug_log cfg env event context w /\
    ticks w2 = (ticks w + length (debug_log cfg env event context w))%nat /\
    match elements (heap w) l with
    | [] => main cfg env event context w = (Return {| statusCode := num 200 |}, w2)
    | _ :: _ =>
        exists e,
          is_latest (elements (heap w) l) e /\
          main cfg env event context w =
          main_outboundEvent cfg env (getLogger cfg env event context) e w2
    end.
Proof.
  intros Hauth Hpost Hevents Hnum.
  rewrite (main_well_shaped event context l w Hauth Hpost Hevents).
  set (w1 := after_debug_log cfg env event context w).
  change (heap w) with (heap w1) in Hnum |- *.
  change (sent w ++ debug_log cfg env event context w) with (sent w1).
  change (ticks w + length (debug_log cfg env event context w))%nat with (ticks w1).
  clearbody w1.
  destruct (selection_numbers l w1 Hnum) as (w2 & Hh2 & Hs2 & Ht2 & Hsel).
  exists w2. repeat split; try done.
  destruct (elements (heap w1) l) as [|x evs].
  - unfold bind at 1. by rewrite Hsel.
  - destruct Hsel as (e & Hsel & He). exists e. split; [done|].
    unfold bind at 1. by rewrite Hsel, (is_latest_truthy _ _ He).
Qed.

End MainRuns.

(** ** Observations *)

Section Observations.
Context {A : Type}.

Lemma issued_app (m : M A) (w w' : World) (o : outcome A) (reqs : list Request) :
  m w = (o, w') -> sent w' = sent w ++ reqs -> issued m w = reqs.
Proof.
  intros Hrun Hsent. unfold issued. rewrite Hrun. cbn [snd].
  rewrite Hsent. by rewrite drop_app_length.
Qed.

Lemma issued_unchanged (m : M A) (w : World) (o : outcome A) :
  m w = (o, w) -> issued m w = [].
Proof.
  intros Hrun. apply (issued_app m w w o []); [done|]. by rewrite app_nil_r.
Qed.

Lemma completion_run (m : M A) (w w' : World) (o : outcome A) :
  m w = (o, w') -> completion m w = o.
Proof. unfold completion. by intros ->. Qed.

End Observations.

Lemma filter_forward_log (lg : list Request) :
  at_most_one_log lg -> filter (fun r => is_forward r = true) lg = [].
Proof.
  intros [->|(r & -> & Hr)]; [done|].
  rewrite filter_cons_False by (by rewrite Hr). done.
Qed.

(** ** Authorization *)

Section Authorization.
Context {js : Engine} (cfg : Config) (env : Env).

Lemma append_colon_nonempty (s : string) : s +:+ ":" <> "".
Proof. by destruct s. Qed.

Lemma String_split_nonempty (sep : ascii) (s : string) : String_split sep s <> [].
Proof.
  destruct s as [|c s]; [done|]. cbn [String_split].
  destruct (Ascii.eqb c sep); [done|]. by destruct (String_split sep s).
Qed.

Lemma isAuthorizedRequest_spec (event : InvocationEvent) :
  isAuthorizedRequest cfg event = true <->
  exists hd authz encodedToken,
    http event = Some hd /\
    WebEventHTTP.authorization hd = Some authz /\
    String_split " " authz !! 1%nat = Some encodedToken /\
    Buffer_toString_utf8 (Buffer_from_base64 encodedToken)
    = REQUEST_AUTH_TOKEN cfg +:+ ":".
Proof.
  unfold isAuthorizedRequest. split.
  - destruct (http event) as [hd|]; [|done]. cbn [mbind option_bind].
    destruct (WebEventHTTP.authorization hd) as [authz|] eqn:Hauthz; [|done].
    cbn [falsy default from_option id].
    destruct (String.eqb authz ""); [done|].
    destruct (String_split " " authz !! 1%nat) as [tok|] eqn:Htok;
      cbn [falsy default from_option id]; [|done].
    destruct (String.eqb tok ""); [done|].
    intros Heq%String.eqb_eq. by exists hd, authz, tok.
  - intros (hd & authz & tok & -> & Hauthz & Htok & Hdec).
    cbn [mbind option_bind]. rewrite Hauthz. cbn [falsy default from_option id].
    destruct (String.eqb authz "") eqn:Hempty.
    { apply String.eqb_eq in Hempty. by subst authz. }
    rewrite Htok. cbn [falsy default from_option id].
    destruct (String.eqb tok "") eqn:Hempty'.
    { apply String.eqb_eq in Hempty'. subst tok.
      exfalso. by eapply append_colon_nonempty. }
    by apply String.eqb_eq.
Qed.

Lemma main_unauthorized event context (w : World) :
  isAuthorizedRequest cfg event = false ->
  main cfg env event context w = (Return {| statusCode := num 200 |}, w).
Proof. intros Hauth. unfold main. by rewrite Hauth. Qed.

Lemma main_not_well_shaped event context (w : World) :
  WebEventHTTP.method <$> http event <> Some "POST"
  \/ Array_isArray (Events event) = false ->
  main cfg env event context w = (Return {| statusCode := num 200 |}, w).
Proof.
  intros Hshape. unfold main.
  destruct (negb (isAuthorizedRequest cfg event)); [done|].
  destruct Hshape as [Hm|Ha].
  - by rewrite bool_decide_eq_false_2.
  - rewrite Ha. cbn [negb]. by rewrite orb_true_r.
Qed.

End Authorization.

(** C2.  A request is authorized exactly when its authorization header is
    present and the second of its space-separated parts base64-decodes to
    the configured token followed by a colon; a request that is not
    authorized (no header, no second part, another decoded value) is
    answered with [{ statusCode: 200 }] and the handler issues no outbound
    call at all. *)
Theorem unauthorized_request_is_dropped {js : Engine} (cfg : Config) (env : Env)
    (event : InvocationEvent) (context : InvocationContext) (w : World) :
  (isAuthorizedRequest cfg event = true <->
   exists hd authz encodedToken,
     http event = Some hd /\
     WebEventHTTP.authorization hd = Some authz /\
     String_split " " authz !! 1%nat = Some encodedToken /\
     Buffer_toString_utf8 (Buffer_from_base64 encodedToken)
     = REQUEST_AUTH_TOKEN cfg +:+ ":") /\
  (isAuthorizedRequest cfg event = false ->
   completion (main cfg env event context) w = Return {| statusCode := num 200 |} /\
   issued (main cfg env event context) w = []).
Proof.
  split; [apply isAuthorizedRequest_spec|].
  intros Hauth. pose proof (main_unauthorized cfg env event context w Hauth) as Hrun.
  split; [by apply (completion_run _ w w) | by eapply issued_unchanged].
Qed.

(** ** The scheme of the authorization header *)

Section Scheme.

Lemma String_split_no_space (s : string) :
  no_space s = true -> String_split " " s = [s].
Proof.
  unfold no_space. induction s as [|c s IH]; [done|].
  cbn [list_ascii_of_string forallb String_split].
  intros [Hc Hs]%andb_true_iff. apply negb_true_iff in Hc.
  by rewrite Hc, (IH Hs).
Qed.

Lemma String_split_part (s rest : string) :
  no_space s = true ->
  String_split " " (s +:+ String " " rest) = s :: String_split " " rest.
Proof.
  unfold no_space. induction s as [|c s IH]; [done|].
  cbn [list_ascii_of_string forallb].
  intros [Hc Hs]%andb_true_iff. apply negb_true_iff in Hc.
  change (String c s +:+ String " " rest) with (String c (s +:+ String " " rest)).
  cbn [String_split]. by rewrite Hc, (IH Hs).
Qed.

Lemma append_empty_r (s : string) : s +:+ "" = s.
Proof.
  induction s as [|c s IH]; [done|].
  change (String c (s +:+ "") = String c s). by rewrite IH.
Qed.

Lemma String_split_token (t : string) (more : list string) :
  no_space t = true ->
  exists parts, String_split " " (t +:+ further_parts more) = t :: parts.
Proof.
  intros Ht. destruct more as [|p more]; unfold further_parts; cbn [foldr].
  - exists []. rewrite append_empty_r. by apply String_split_no_space.
  - eexists. by apply (String_split_part t _ Ht).
Qed.

End Scheme.

(** C10.  The authorization check never looks at the scheme: whatever word
    [scheme] is ("Basic", "Bearer", any other, even the empty one), a header
    [scheme encodedToken], with any further space-separated parts after it,
    is authorized as soon as [encodedToken] base64-decodes to the configured
    token followed by a colon.  The scheme and the token are space-separated
    parts of the header: they hold no space. *)
Theorem authorization_scheme_is_ignored (cfg : Config) (event : InvocationEvent)
    (hd : WebEventHTTP.t) (scheme encodedToken : string) (more : list string) :
  no_space scheme = true ->
  no_space encodedToken = true ->
  Buffer_toString_utf8 (Buffer_from_base64 encodedToken)
  = REQUEST_AUTH_TOKEN cfg +:+ ":" ->
  http event = Some hd ->
  WebEventHTTP.authorization hd
  = Some (scheme +:+ " " +:+ encodedToken +:+ further_parts more) ->
  isAuthorizedRequest cfg event = true.
Proof.
  intros Hscheme Htoken Hdecode Hhttp Hheader.
  apply isAuthorizedRequest_spec.
  exists hd, (scheme +:+ " " +:+ encodedToken +:+ further_parts more), encodedToken.
  repeat split; try done.
  destruct (String_split_token encodedToken more Htoken) as [parts Hparts].
  change (" " +:+ encodedToken +:+ further_parts more)
    with (String " " (encodedToken +:+ further_parts more)).
  by rewrite (String_split_part _ _ Hscheme), Hparts.
Qed.

Lemma authorization_scheme_is_ignored_witness :
  no_space "Bearer" = true /\
  no_space "dG9rZW46" = true /\
  isAuthorizedRequest Fixtures.cfg
    (Fixtures.request "Bearer dG9rZW46 realm=x y" "POST") = true.
Proof.
  split; [reflexivity|]. split; [reflexivity|].
  apply (authorization_scheme_is_ignored Fixtures.cfg _
           {| WebEventHTTP.authorization := Some "Bearer dG9rZW46 realm=x y";
              WebEventHTTP.method := "POST"; WebEventHTTP.path := "" |}
           "Bearer" "dG9rZW46" ["realm=x"; "y"]); reflexivity.
Defined.

(** Tokens with a character above U+00FF, read by the low byte of the
    character: the first two decode to the configured token and a colon and
    are authorized; the last two end at a character that counts as [=] and
    are refused. *)
Example authorization_low_bytes :
  map (fun a => isAuthorizedRequest Fixtures.cfg (Fixtures.request a "POST"))
    ["Basic ŤG9rZW46"; "Basic dG9rZW4Ķ"; "Basic dG9rĽZW46"; "Basic 😀dG9rZW46"]
  = [true; true; false; false].
Proof. reflexivity. Qed.

(** ** Shape filtering *)

(** C6.  An authorized request whose method is not POST, or whose [Events]
    is absent ([undefined]) or not an array, is answered with
    [{ statusCode: 200 }] and the handler issues no outbound call; an empty
    [Events] array passes the shape check (the request is announced to the
    log sink, when one is configured) and ends in the empty-batch no-op:
    200 and no forward call. *)
Theorem ill_shaped_request_is_dropped {js : Engine} (cfg : Config) (env : Env)
    (event : InvocationEvent) (context : InvocationContext) (w : World) :
  isAuthorizedRequest cfg event = true ->
  (WebEventHTTP.method <$> http event <> Some "POST"
   \/ Array_isArray (Events event) = false ->
   completion (main cfg env event context) w = Return {| statusCode := num 200 |} /\
   issued (main cfg env event context) w = []) /\
  (forall l : loc,
     WebEventHTTP.method <$> http event = Some "POST" ->
     Events event = VArr l ->
     heap w !! l = Some [] ->
     Array_isArray (Events event) = true /\
     completion (main cfg env event context) w = Return {| statusCode := num 200 |} /\
     issued (main cfg env event context) w = debug_log cfg env event context w /\
     filter (fun r => is_forward r = true) (issued (main cfg env event context) w) = []).
Proof.
  intros Hauth. split.
  - intros Hshape.
    pose proof (main_not_well_shaped cfg env event context w Hshape) as Hrun.
    split; [by apply (completion_run _ w w) | by eapply issued_unchanged].
  - intros l Hpost Hevents Hl.
    assert (elements (heap w) l = []) as Helems by by apply elements_lookup.
    destruct (main_selects cfg env event context l w Hauth Hpost Hevents)
      as (w2 & _ & Hsent & _ & Hrun).
    { rewrite Helems. constructor. }
    rewrite Helems in Hrun.
    split; [by rewrite Hevents|].
    split; [by apply (completion_run _ w w2)|].
    rewrite (issued_app _ w w2 _ _ Hrun Hsent). split; [done|].
    unfold debug_log. by destruct (logging_enabled cfg).
Qed.

Lemma ill_shaped_request_is_dropped_witness :
  isAuthorizedRequest Fixtures.cfg (Fixtures.request "Basic dG9rZW46" "GET") = true /\
  completion
    (main (js := sample_engine) Fixtures.cfg Fixtures.env
       (Fixtures.request "Basic dG9rZW46" "GET") Fixtures.context)
    (Fixtures.world []) = Return {| statusCode := num 200 |} /\
  issued
    (main (js := sample_engine) Fixtures.cfg Fixtures.env
       (Fixtures.request "Basic dG9rZW46" "GET") Fixtures.context)
    (Fixtures.world []) = [].
Proof.
  split; [reflexivity|].
  apply (ill_shaped_request_is_dropped (js := sample_engine) Fixtures.cfg Fixtures.env
           (Fixtures.request "Basic dG9rZW46" "GET") Fixtures.context
           (Fixtures.world [])); [reflexivity|].
  left. discriminate.
Defined.

(** ** Event selection *)

(** C3.  For an authorized POST whose [Events] is an array of events with
    numeric timestamps: of a non-empty batch exactly one event goes on to
    the content filters, the one with the maximum timestamp, last in input
    order among the events that share it (the last element of the copy
    after the stable ascending sort): from the selection on the handler
    runs as [main_outboundEvent] on that event alone, in a world where
    nothing but the debug log call has been issued; for an empty batch the
    handler returns [{ statusCode: 200 }] without a forward call. *)
Theorem latest_event_is_selected {js : Engine} (cfg : Config) (env : Env)
    (event : InvocationEvent) (context : InvocationContext) (l : loc)
    (evs : list value) (w : World) :
  isAuthorizedRequest cfg event = true ->
  WebEventHTTP.method <$> http event = Some "POST" ->
  Events event = VArr l ->
  heap w !! l = Some evs ->
  Forall (fun y => is_Some (timeStamp_of y)) evs ->
  match evs with
  | [] =>
      completion (main cfg env event context) w = Return {| statusCode := num 200 |} /\
      filter (fun r => is_forward r = true) (issued (main cfg env event context) w) = []
  | _ :: _ =>
      exists e w2,
        is_latest evs e /\
        (forall e', is_latest evs e' -> e' = e) /\
        main cfg env event context w =
        main_outboundEvent cfg env (getLogger cfg env event context) e w2 /\
        heap w ⊆ heap w2 /\
        sent w2 = sent w ++ debug_log cfg env event context w
  end.
Proof.
  intros Hauth Hpost Hevents Hl Hnum.
  pose proof (elements_lookup _ _ _ Hl) as Helems.
  destruct (main_selects cfg env event context l w Hauth Hpost Hevents)
    as (w2 & Hheap & Hsent & _ & Hrun); [by rewrite Helems|].
  rewrite Helems in Hrun. destruct evs as [|x evs].
  - split; [by apply (completion_run _ w w2)|].
    rewrite (issued_app _ w w2 _ _ Hrun Hsent).
    unfold debug_log. by destruct (logging_enabled cfg).
  - destruct Hrun as (e & He & Hrun). exists e, w2.
    repeat split; try done.
    intros e' He'. by apply (is_latest_unique (x :: evs)).
Qed.

(** A batch of two events of the sender: the one of timestamp 100 passes
    the filters, the one of timestamp 200 is a message, not a tracking
    event.  The later one is selected and masks the earlier one. *)
Lemma latest_event_is_selected_witness :
  let early := Fixtures.outboundEvent Fixtures.sender 0 100 (num 10) (num 20) in
  let late := Fixtures.outboundEvent Fixtures.sender 3 200 (num 11) (num 21) in
  let event := Fixtures.request "Basic dG9rZW46" "POST" in
  (exists e w2,
     is_latest [early; late] e /\
     (forall e', is_latest [early; late] e' -> e' = e) /\
     main (js := sample_engine) Fixtures.cfg Fixtures.env event Fixtures.context
       (Fixtures.world [early; late]) =
     main_outboundEvent (js := sample_engine) Fixtures.cfg Fixtures.env
       (getLogger Fixtures.cfg Fixtures.env event Fixtures.context) e w2 /\
     heap (Fixtures.world [early; late]) ⊆ heap w2 /\
     sent w2 = sent (Fixtures.world [early; late])
               ++ debug_log Fixtures.cfg Fixtures.env event Fixtures.context
                    (Fixtures.world [early; late])) /\
  is_latest [early; late] late /\
  filter (fun r => is_forward r = true)
    (issued (main (js := sample_engine) Fixtures.cfg Fixtures.env event Fixtures.context)
       (Fixtures.world [early; late])) = [] /\
  length (filter (fun r => is_forward r = true)
    (issued (main (js := sample_engine) Fixtures.cfg Fixtures.env event Fixtures.context)
       (Fixtures.world [early]))) = 1%nat.
Proof.
  cbv zeta. split; [|split; [|split]].
  - apply (latest_event_is_selected (js := sample_engine) Fixtures.cfg Fixtures.env
             (Fixtures.request "Basic dG9rZW46" "POST") Fixtures.context 1%positive
             [Fixtures.outboundEvent Fixtures.sender 0 100 (num 10) (num 20);
              Fixtures.outboundEvent Fixtures.sender 3 200 (num 11) (num 21)]
             (Fixtures.world _)); try reflexivity.
    repeat constructor; by eexists.
  - eexists [_], [], _. split; [reflexivity|]. split; [reflexivity|].
    split; [|constructor]. repeat constructor. eexists. split; [reflexivity|].
    by vm_compute.
  - by vm_compute.
  - by vm_compute.
Defined.

(** ** Content filtering and the forward call *)

Section Typed.
Context {js : Engine} (cfg : Config) (env : Env).

Lemma value_eq_VStr_dec (v : value) (s : string) : {v = VStr s} + {v <> VStr s}.
Proof.
  destruct (strict_eq_string v s) eqn:H.
  - left. by apply strict_eq_string_spec.
  - right. intros Hv%strict_eq_string_spec. congruence.
Qed.

Lemma value_eq_VNum_dec (v : value) (n : number) : {v = VNum n} + {v <> VNum n}.
Proof.
  destruct (strict_eq_number v n) eqn:H.
  - left. by apply strict_eq_number_spec.
  - right. intros Hv%strict_eq_number_spec. congruence.
Qed.

Lemma passes_filters_dec (e : value) :
  {passes_filters cfg e} + {~ passes_filters cfg e}.
Proof.
  unfold passes_filters.
  destruct (value_eq_VStr_dec (property e "imei") (TRACKING_SENDER_DEVICE_IMEI cfg));
    [|right; tauto].
  destruct (value_eq_VNum_dec (property (property e "point") "latitude") (num 0));
    [destruct (value_eq_VNum_dec (property (property e "point") "longitude") (num 0));
     [right; tauto|]|].
  all: destruct (value_eq_VNum_dec (property e "messageCode") (num 0));
    [left; tauto|].
  all: destruct (value_eq_VNum_dec (property e "messageCode") (num 10));
    [left; tauto|].
  all: destruct (value_eq_VNum_dec (property e "messageCode") (num 12));
    [left; tauto|right; tauto].
Qed.

Lemma typed_batch_numbers (evs : list value) :
  forallb is_IPCOutboundEvent evs = true ->
  Forall (fun y => is_Some (timeStamp_of y)) evs.
Proof.
  rewrite forallb_forall, Forall_forall. intros H y Hy.
  apply is_IPCOutboundEvent_timeStamp, H. by apply list_elem_of_In.
Qed.

Lemma typed_batch_elem (evs : list value) (e : value) :
  forallb is_IPCOutboundEvent evs = true -> e ∈ evs ->
  is_IPCOutboundEvent e = true.
Proof.
  rewrite forallb_forall. intros H He. by apply H, list_elem_of_In.
Qed.

(** The run of the handler on an authorized POST with a non-empty batch of
    events of the declared shape, by the filters on the latest event. *)
Lemma main_typed_batch event context (l : loc) (evs : list value) (w : World) :
  isAuthorizedRequest cfg event = true ->
  WebEventHTTP.method <$> http event = Some "POST" ->
  Events event = VArr l ->
  heap w !! l = Some evs ->
  evs <> [] ->
  forallb is_IPCOutboundEvent evs = true ->
  exists e w2,
    is_latest evs e /\ is_IPCOutboundEvent e = true /\
    heap w ⊆ heap w2 /\
    sent w2 = sent w ++ debug_log cfg env event context w /\
    ticks w2 = (ticks w + length (debug_log cfg env event context w))%nat /\
    main cfg env event context w =
    main_outboundEvent cfg env (getLogger cfg env event context) e w2.
Proof.
  intros Hauth Hpost Hevents Hl Hne Htyped.
  pose proof (elements_lookup _ _ _ Hl) as Helems.
  destruct (main_selects cfg env event context l w Hauth Hpost Hevents)
    as (w2 & Hheap & Hsent & Hticks & Hrun).
  { rewrite Helems. by apply typed_batch_numbers. }
  rewrite Helems in Hrun. destruct evs as [|x evs]; [done|].
  destruct Hrun as (e & He & Hrun). exists e, w2. repeat split; try done.
  eapply typed_batch_elem; [done|]. by apply is_latest_elem.
Qed.

End Typed.

(** C4.  For an authorized POST with a non-empty batch of events of the
    declared shape, the handler returns [{ statusCode: 200 }], and it
    issues a forward call if and only if the selected (latest) event passes
    the three content filters: its [imei] is the configured sender device,
    its [messageCode] is 0, 10 or 12, and its point is not at latitude 0
    and longitude 0. *)
Theorem forward_iff_filters_pass {js : Engine} (cfg : Config) (env : Env)
    (event : InvocationEvent) (context : InvocationContext) (l : loc)
    (evs : list value) (w : World) :
  isAuthorizedRequest cfg event = true ->
  WebEventHTTP.method <$> http event = Some "POST" ->
  Events event = VArr l ->
  heap w !! l = Some evs ->
  evs <> [] ->
  forallb is_IPCOutboundEvent evs = true ->
  exists e,
    is_latest evs e /\
    completion (main cfg env event context) w = Return {| statusCode := num 200 |} /\
    ((exists r, r ∈ issued (main cfg env event context) w /\ is_forward r = true)
     <-> passes_filters cfg e).
Proof.
  intros Hauth Hpost Hevents Hl Hne Htyped.
  destruct (main_typed_batch cfg env event context l evs w Hauth Hpost Hevents
              Hl Hne Htyped) as (e & w2 & He & Hte & _ & Hsent & _ & Hrun).
  exists e. split; [done|].
  destruct (passes_filters_dec cfg e) as [Hpass|Hfail].
  - destruct (is_IPCOutboundEvent_inv e Hte)
      as (ps & ts & pp & lat & lon & -> & _ & Hp & Hlat & Hlon).
    assert (exists code, property (VObj ps) "messageCode" = VNum code) as [code Hcode].
    { destruct Hpass as (_ & [Hc|[Hc|Hc]] & _); by eexists. }
    rewrite <- Hp in Hlat, Hlon.
    destruct (main_outboundEvent_forwarded cfg env event context (VObj ps) w2
                code lat lon Hte Hpass Hcode Hlat Hlon) as (lg & Hfw & Hlg & _).
    rewrite Hfw in Hrun.
    split; [by apply (completion_run _ _ _ _ Hrun)|].
    split; [done|]. intros _.
    erewrite issued_app; [|exact Hrun|].
    2:{ cbn [sent]. rewrite Hsent, <- app_assoc. reflexivity. }
    eexists. split; [|apply is_forward_forward_request].
    apply elem_of_app. right. by left.
  - rewrite (main_outboundEvent_filtered cfg env event context e w2 Hte Hfail) in Hrun.
    split; [by apply (completion_run _ _ _ _ Hrun)|].
    split; [|done]. intros (r & Hr & Hfwd). exfalso.
    rewrite (issued_app _ w w2 _ _ Hrun Hsent) in Hr.
    unfold debug_log in Hr. destruct (logging_enabled cfg).
    + apply list_elem_of_singleton in Hr. subst r. done.
    + by apply elem_of_nil in Hr.
Qed.

Lemma forward_iff_filters_pass_witness :
  let good := Fixtures.outboundEvent Fixtures.sender 10 100 (num 10) (num 20) in
  let event := Fixtures.request "Basic dG9rZW46" "POST" in
  [good] <> [] /\
  forallb is_IPCOutboundEvent [good] = true /\
  exists e,
    is_latest [good] e /\
    completion (main (js := sample_engine) Fixtures.cfg Fixtures.env event Fixtures.context)
      (Fixtures.world [good]) = Return {| statusCode := num 200 |} /\
    ((exists r,
        r ∈ issued (main (js := sample_engine) Fixtures.cfg Fixtures.env event
                      Fixtures.context) (Fixtures.world [good]) /\
        is_forward r = true)
     <-> passes_filters Fixtures.cfg e).
Proof.
  cbv zeta. split; [discriminate|]. split; [reflexivity|].
  apply (forward_iff_filters_pass (js := sample_engine) Fixtures.cfg Fixtures.env
           (Fixtures.request "Basic dG9rZW46" "POST") Fixtures.context 1%positive
           [Fixtures.outboundEvent Fixtures.sender 10 100 (num 10) (num 20)]
           (Fixtures.world _)); try reflexivity.
  discriminate.
Defined.

Lemma receiver_label_lookup (c : number) :
  or_else (messageCodeToReceiverText c) "Location Update" = receiver_label c.
Proof.
  unfold messageCodeToReceiverText, receiver_label,
    messageCodes.PositionReport, messageCodes.StartTrack, messageCodes.StopTrack.
  destruct (bool_decide (c = num 0)) eqn:H0.
  - apply bool_decide_eq_true in H0. subst c. reflexivity.
  - destruct (bool_decide (c = num 10)); [reflexivity|].
    by destruct (bool_decide (c = num 12)).
Qed.

(** C5.  For an authorized POST with a batch of events of the declared
    shape whose selected event passes the filters, the handler issues
    exactly one forward call: a POST to the Messaging endpoint of the
    inbound API whose body holds one message, with the configured receiver
    as its only recipient, the configured sender address, the text
    [<Label>: lat <latitude> lon <longitude>], the location type
    [GPSLocation], the coordinate, altitude, speed and course of the
    event's point, and as [Timestamp] the reading of the clock at the call
    (the event's own [timeStamp] does not enter the message).  The label is
    [Location Update] for a position report (0), [Tracking Started] for
    start track (10) and [Tracking Stopped] for stop track (12); for a code
    without an entry in the table the expression of the label falls back to
    [Location Update]. *)
Theorem forwarded_message {js : Engine} (cfg : Config) (env : Env)
    (event : InvocationEvent) (context : InvocationContext) (l : loc)
    (evs : list value) (w : World) (e : value) (code lat lon : number) :
  isAuthorizedRequest cfg event = true ->
  WebEventHTTP.method <$> http event = Some "POST" ->
  Events event = VArr l ->
  heap w !! l = Some evs ->
  forallb is_IPCOutboundEvent evs = true ->
  is_latest evs e ->
  passes_filters cfg e ->
  property e "messageCode" = VNum code ->
  property (property e "point") "latitude" = VNum lat ->
  property (property e "point") "longitude" = VNum lon ->
  (exists label,
     (code = num 0 /\ label = "Location Update" \/
      code = num 10 /\ label = "Tracking Started" \/
      code = num 12 /\ label = "Tracking Stopped") /\
     filter (fun r => is_forward r = true) (issued (main cfg env event context) w) =
     [ {| url := "https://" +:+ GARMIN_INBOUND_API_HOST cfg
                   +:+ "/IPCInbound/V1/Messaging.svc/Message";
          options :=
            {| body :=
                 JSON_Messages
                   [ {| Recipients := [TRACKING_RECEIVER_DEVICE_IMEI cfg];
                        Sender := TRACKING_SENDER_INREACH_ADDRESS cfg;
                        Timestamp :=
                          clock env
                            (ticks w + length (debug_log cfg env event context w));
                        Message :=
                          label
                            +:+ ": lat " +:+ Number_toString lat
                            +:+ " lon " +:+ Number_toString lon;
                        ReferencePoint :=
                          {| LocationType := "GPSLocation";
                             Altitude := property (property e "point") "altitude";
                             Speed := property (property e "point") "speed";
                             Course := property (property e "point") "course";
                             Coordinate :=
                               {| Latitude := VNum lat;
                                  Longitude := VNum lon |} |} |} ];
               headers :=
                 {| Authorization := "Basic " +:+ inboundApiAuth cfg;
                    Content_Type := "application/json" |};
               method := "POST" |} |} ]) /\
  messageCodeToReceiverText (num 0) = Some "Location Update" /\
  messageCodeToReceiverText (num 10) = Some "Tracking Started" /\
  messageCodeToReceiverText (num 12) = Some "Tracking Stopped" /\
  (forall c, c <> num 0 -> c <> num 10 -> c <> num 12 ->
             or_else (messageCodeToReceiverText c) "Location Update"
             = "Location Update").
Proof.
  intros Hauth Hpost Hevents Hl Htyped He Hpass Hcode Hlat Hlon.
  assert (evs <> []) as Hne.
  { intros ->. apply is_latest_elem in He. by apply elem_of_nil in He. }
  destruct (main_typed_batch cfg env event context l evs w Hauth Hpost Hevents
              Hl Hne Htyped) as (e' & w2 & He' & Hte & _ & Hsent & Hticks & Hrun).
  assert (e' = e) as -> by by apply (is_latest_unique evs).
  destruct (main_outboundEvent_forwarded cfg env event context e w2
              code lat lon Hte Hpass Hcode Hlat Hlon) as (lg & Hfw & Hlg & _).
  rewrite Hfw in Hrun.
  assert (exists label,
            (code = num 0 /\ label = "Location Update" \/
             code = num 10 /\ label = "Tracking Started" \/
             code = num 12 /\ label = "Tracking Stopped") /\
            receiver_label code = label) as (label & Hlabel & Hreceiver).
  { destruct Hpass as (_ & Hc & _). rewrite Hcode in Hc.
    destruct Hc as [[= ->]|[[= ->]|[= ->]]].
    - exists "Location Update". split; [by left | reflexivity].
    - exists "Tracking Started". split; [right; by left | reflexivity].
    - exists "Tracking Stopped". split; [right; by right | reflexivity]. }
  split.
  - exists label. split; [exact Hlabel|].
    erewrite issued_app; [|exact Hrun|].
    2:{ cbn [sent]. rewrite Hsent, <- app_assoc. reflexivity. }
    rewrite filter_app, filter_cons_True by apply is_forward_forward_request.
    rewrite (filter_forward_log lg Hlg).
    assert (filter (fun r => is_forward r = true)
              (debug_log cfg env event context w) = []) as ->.
    { unfold debug_log. by destruct (logging_enabled cfg). }
    cbn [app]. unfold forward_request, location_message.
    by rewrite Hticks, Hreceiver.
  - repeat split; try reflexivity. intros c H0 H10 H12.
    unfold messageCodeToReceiverText, messageCodes.PositionReport,
      messageCodes.StartTrack, messageCodes.StopTrack.
    by rewrite !bool_decide_eq_false_2.
Qed.

(** A start-track event at latitude 10, longitude 20: the label is that of
    the table, not the fallback. *)
Lemma forwarded_message_witness :
  let e := Fixtures.outboundEvent Fixtures.sender 10 100 (num 10) (num 20) in
  let event := Fixtures.request "Basic dG9rZW46" "POST" in
  forallb is_IPCOutboundEvent [e] = true /\
  is_latest [e] e /\
  passes_filters Fixtures.cfg e /\
  map (fun r =>
         match body (options r) with
         | JSON_Messages [m] => (Message m, Recipients m, Sender m, Timestamp m)
         | _ => ("", [], "", num 0)
         end)
    (filter (fun r => is_forward r = true)
       (issued (main (js := sample_engine) Fixtures.cfg Fixtures.env event
                  Fixtures.context) (Fixtures.world [e])))
  = [("Tracking Started: lat 10 lon 20", ["300000000000002"],
      "sender@inreach.garmin.com", num 1001)].
Proof.
  cbv zeta.
  assert (is_latest [Fixtures.outboundEvent Fixtures.sender 10 100 (num 10) (num 20)]
            (Fixtures.outboundEvent Fixtures.sender 10 100 (num 10) (num 20)))
    as Hlatest.
  { eexists [], [], _. repeat split; constructor. }
  assert (passes_filters Fixtures.cfg
            (Fixtures.outboundEvent Fixtures.sender 10 100 (num 10) (num 20)))
    as Hpass.
  { split; [reflexivity|]. split; [right; by left|]. intros [[=] _]. }
  split; [reflexivity|]. split; [exact Hlatest|]. split; [exact Hpass|].
  destruct (proj1 (forwarded_message (js := sample_engine) Fixtures.cfg Fixtures.env
             (Fixtures.request "Basic dG9rZW46" "POST") Fixtures.context 1%positive
             [Fixtures.outboundEvent Fixtures.sender 10 100 (num 10) (num 20)]
             (Fixtures.world _)
             (Fixtures.outboundEvent Fixtures.sender 10 100 (num 10) (num 20))
             (num 10) (num 10) (num 20)
             eq_refl eq_refl eq_refl eq_refl eq_refl Hlatest Hpass
             eq_refl eq_refl eq_refl)) as (label & Hlabel & Hforward).
  rewrite Hforward.
  destruct Hlabel as [[[=] _]|[[_ ->]|[[=] _]]].
  reflexivity.
Defined.

(** The examples of the specification: a position report and a stop-track
    event at latitude 10, longitude 20. *)
Example forwarded_message_labels :
  map (fun code =>
         map (fun r =>
                match body (options r) with
                | JSON_Messages [m] => Message m
                | _ => ""
                end)
           (issued (main (js := sample_engine) Fixtures.cfg Fixtures.env
                      (Fixtures.request "Basic dG9rZW46" "POST") Fixtures.context)
              (Fixtures.world
                 [Fixtures.outboundEvent Fixtures.sender code 100 (num 10) (num 20)])))
    [0; 10; 12]%Z
  = [[""; "Location Update: lat 10 lon 20"];
     [""; "Tracking Started: lat 10 lon 20"];
     [""; "Tracking Stopped: lat 10 lon 20"]].
Proof. by vm_compute. Qed.

(** ** The result of the handler *)

(** C1.  The handler does not always return 200.  On an authorized POST
    whose only event is a position report of the sender without a [point],
    reading [point.latitude] (line 121) throws outside the [try] block and
    the promise of [main] rejects, against the documentation of [main]
    ("Always returns a 200 response"). *)
Lemma main_throws_on_event_without_point :
  completion
    (main (js := sample_engine) Fixtures.cfg Fixtures.env
       (Fixtures.request "Basic dG9rZW46" "POST") Fixtures.context)
    (Fixtures.world [Fixtures.pointless])
  = Throw (TypeError "Cannot read properties of undefined (reading 'latitude')").
Proof. by vm_compute. Qed.

(** A batch of two [null] events: the comparison function of the sort
    throws. *)
Example main_throws_on_null_events :
  completion
    (main (js := sample_engine) Fixtures.cfg Fixtures.env
       (Fixtures.request "Basic dG9rZW46" "POST") Fixtures.context)
    (Fixtures.world [VNull; VNull])
  = Throw (TypeError "Cannot read properties of null (reading 'timeStamp')").
Proof. by vm_compute. Qed.

(** ** The outbound calls *)

Section Calls.
Context {js : Engine} (cfg : Config) (env : Env).

Lemma main_issued event context (w : World) :
  heap w ⊆ heap (main cfg env event context w).2 /\
  main_shape cfg (issued (main cfg env event context) w).
Proof.
  destruct (main cfg env event context w) as [o w'] eqn:Hrun.
  destruct (main_trace cfg env event context w o w' Hrun) as (Hheap & reqs & Hsent & Hshape).
  split; [done|]. by rewrite (issued_app _ w w' o reqs Hrun Hsent).
Qed.

Lemma at_most_one_log_length (lg : list Request) :
  at_most_one_log lg -> (length lg <= 1)%nat.
Proof. intros [->|(r & -> & _)]; cbn; lia. Qed.

Lemma at_most_one_forward_length (fw : list Request) :
  at_most_one_forward cfg fw -> (length fw <= 1)%nat.
Proof. intros [->|(m & ->)]; cbn; lia. Qed.

End Calls.

(** C7.  The credentials of the inbound API: the base64 string
    [inboundApiAuth] decodes to exactly the bytes of
    [<inboundUser>:<inboundPass>], and every forward call that the handler
    issues carries the header [Authorization: Basic <inboundApiAuth>]. *)
Theorem forward_call_basic_auth {js : Engine} (cfg : Config) (env : Env)
    (event : InvocationEvent) (context : InvocationContext) (w : World) :
  Buffer_from_base64 (inboundApiAuth cfg)
  = Buffer_from (GARMIN_INBOUND_API_USER cfg +:+ ":" +:+ GARMIN_INBOUND_API_PASS cfg) /\
  string_of_list_ascii (Buffer_from_base64 (inboundApiAuth cfg))
  = GARMIN_INBOUND_API_USER cfg +:+ ":" +:+ GARMIN_INBOUND_API_PASS cfg /\
  Forall (fun r => is_forward r = true ->
                   Authorization (headers (options r))
                   = "Basic " +:+ inboundApiAuth cfg)
    (issued (main cfg env event context) w).
Proof.
  split; [apply base64_roundtrip|].
  split.
  { unfold inboundApiAuth. rewrite base64_roundtrip.
    apply string_of_list_ascii_of_string. }
  destruct (main_issued cfg env event context w)
    as (_ & dbg & fw & lg & -> & Hdbg & Hfw & Hlg).
  rewrite !Forall_app. repeat split.
  - destruct Hdbg as [->|(r & -> & Hr)]; repeat constructor. congruence.
  - destruct Hfw as [->|(m & ->)]; repeat constructor.
  - destruct Hlg as [->|(r & -> & Hr)]; repeat constructor. congruence.
Qed.

(** The log sink is configured and the inbound API rejects the forward
    call: a debug log call, the forward call and an error log call. *)
Lemma three_outbound_calls :
  length
    (issued
       (main (js := sample_engine) Fixtures.cfg Fixtures.env_rejecting
          (Fixtures.request "Basic dG9rZW46" "POST") Fixtures.context)
       (Fixtures.world
          [Fixtures.outboundEvent Fixtures.sender 0 100 (num 10) (num 20)]))
  = 3%nat /\
  map is_forward
    (issued
       (main (js := sample_engine) Fixtures.cfg Fixtures.env_rejecting
          (Fixtures.request "Basic dG9rZW46" "POST") Fixtures.context)
       (Fixtures.world
          [Fixtures.outboundEvent Fixtures.sender 0 100 (num 10) (num 20)]))
  = [false; true; false].
Proof. by vm_compute. Qed.

(** C8 (amended).  Within one invocation the handler issues at most three
    outbound calls, one after the other: at most one log call (the debug
    record of a well-shaped request), then at most one forward call, then
    at most one log call (the error record of a failed forward). *)
Theorem at_most_three_outbound_calls {js : Engine} (cfg : Config) (env : Env)
    (event : InvocationEvent) (context : InvocationContext) (w : World) :
  (exists dbg fw lg,
     issued (main cfg env event context) w = dbg ++ fw ++ lg /\
     at_most_one_log dbg /\ at_most_one_forward cfg fw /\ at_most_one_log lg) /\
  (length (issued (main cfg env event context) w) <= 3)%nat /\
  (length (filter (fun r => is_forward r = true)
             (issued (main cfg env event context) w)) <= 1)%nat.
Proof.
  destruct (main_issued cfg env event context w)
    as (_ & dbg & fw & lg & Heq & Hdbg & Hfw & Hlg).
  split; [by exists dbg, fw, lg|]. rewrite Heq. split.
  - rewrite !length_app.
    pose proof (at_most_one_log_length dbg Hdbg).
    pose proof (at_most_one_forward_length cfg fw Hfw).
    pose proof (at_most_one_log_length lg Hlg). lia.
  - rewrite !filter_app, !length_app.
    rewrite (filter_forward_log dbg Hdbg), (filter_forward_log lg Hlg).
    pose proof (length_filter (fun r => is_forward r = true) fw).
    pose proof (at_most_one_forward_length cfg fw Hfw). cbn [length]. lia.
Qed.

(** ** The input event *)

(** C9.  The handler never writes to the arrays it is given: every array of
    the heap of the invocation, the [Events] array among them, holds the
    same elements in the same order when the handler completes, whether it
    returns or throws.  (The sort and the [pop] work on the copy that the
    spread allocates.) *)
Theorem input_arrays_unchanged {js : Engine} (cfg : Config) (env : Env)
    (event : InvocationEvent) (context : InvocationContext) (w : World)
    (l : loc) (evs : list value) :
  heap w !! l = Some evs ->
  heap (main cfg env event context w).2 !! l = Some evs.
Proof.
  intros Hl. eapply lookup_weaken; [exact Hl|].
  apply (main_issued cfg env event context w).
Qed.

Lemma input_arrays_unchanged_witness :
  let first := Fixtures.outboundEvent Fixtures.sender 0 200 (num 10) (num 20) in
  let second := Fixtures.outboundEvent Fixtures.sender 0 100 (num 11) (num 21) in
  let event := Fixtures.request "Basic dG9rZW46" "POST" in
  heap (Fixtures.world [first; second]) !! 1%positive = Some [first; second] /\
  heap (main (js := sample_engine) Fixtures.cfg Fixtures.env event Fixtures.context
          (Fixtures.world [first; second])).2 !! 1%positive = Some [first; second].
Proof.
  cbv zeta. split; [reflexivity|].
  apply (input_arrays_unchanged (js := sample_engine) Fixtures.cfg Fixtures.env
           (Fixtures.request "Basic dG9rZW46" "POST") Fixtures.context
           (Fixtures.world _) 1%positive).
  reflexivity.
Defined.

(** Sorting the input array itself, without the spread, would reorder it:
    the heap of the model does record such a write. *)
Example sort_in_place_reorders :
  let first := Fixtures.outboundEvent Fixtures.sender 0 200 (num 10) (num 20) in
  let second := Fixtures.outboundEvent Fixtures.sender 0 100 (num 11) (num 21) in
  heap (Array_sort (js := sample_engine) (byTimeStamp (js := sample_engine))
          (VArr 1%positive) (Fixtures.world [first; second])).2 !! 1%positive
  = Some [second; first].
Proof. by vm_compute. Qed.

(** * Further properties of the handler *)

Section Forwarding.
Context {js : Engine} (cfg : Config) (env : Env).

Lemma ToString_primitive (h : Heap) (v : value) (s : string) :
  primitive_string v = Some s -> ToString h v = Return s.
Proof. destruct v; cbn; congruence. Qed.

Lemma or_else_error_text (err : Error) :
  or_else (Some (message err)) "Unknown error" = error_text err.
Proof. reflexivity. Qed.

Lemma tracked_code (e : value) :
  tracked cfg e ->
  exists code, property e "messageCode" = VNum code /\ code ∈ trackingMessageCodes.
Proof.
  intros (_ & Hcode). unfold trackingMessageCodes.
  destruct Hcode as [Hc|[Hc|Hc]]; eexists; (split; [exact Hc|]);
    rewrite !elem_of_cons; [left | right; left | right; right; left];
    reflexivity.
Qed.

(** The handler on a selected object from the sender with a tracking code,
    whose point is an object with primitive coordinates, not both 0: the
    forward call, then the report of its completion. *)
Lemma main_outboundEvent_forwards event context (ps pp : list (string * value))
    (w : World) (code : number) (slat slon : string) :
  tracked cfg (VObj ps) ->
  property (VObj ps) "messageCode" = VNum code ->
  property (VObj ps) "point" = VObj pp ->
  primitive_string (property (VObj pp) "latitude") = Some slat ->
  primitive_string (property (VObj pp) "longitude") = Some slon ->
  ~ (property (VObj pp) "latitude" = VNum (num 0) /\
     property (VObj pp) "longitude" = VNum (num 0)) ->
  main_outboundEvent cfg env (getLogger cfg env event context) (VObj ps) w =
  (Return {| statusCode := num 200 |},
   {| heap := heap w;
      sent :=
        sent w
          ++ forward_request cfg
               {| Recipients := [TRACKING_RECEIVER_DEVICE_IMEI cfg];
                  Sender := TRACKING_SENDER_INREACH_ADDRESS cfg;
                  Timestamp := clock env (ticks w);
                  Message :=
                    or_else (messageCodeToReceiverText code) "Location Update"
                      +:+ ": lat " +:+ slat +:+ " lon " +:+ slon;
                  ReferencePoint :=
                    {| LocationType := "GPSLocation";
                       Altitude := property (VObj pp) "altitude";
                       Speed := property (VObj pp) "speed";
                       Course := property (VObj pp) "course";
                       Coordinate :=
                         {| Latitude := property (VObj pp) "latitude";
                            Longitude := property (VObj pp) "longitude" |} |} |}
          :: forward_report cfg env event context
               (network env (length (sent w))) (S (ticks w));
      ticks :=
        S (ticks w)
          + length (forward_report cfg env event context
                      (network env (length (sent w))) (S (ticks w))) |}).
Proof.
  intros Htracked Hc Hp Hslat Hslon Hzero.
  destruct (tracked_code _ Htracked) as (code' & Hc' & Hin).
  assert (code' = code) as -> by congruence.
  destruct Htracked as (Himei & _).
  destruct w as [h s t].
  unfold main_outboundEvent, forwardLocationUpdate, bind, lift, ret, try_catch,
    get_heap, Date_now, fetch.
  rewrite !GetV_object, Hp, Hc, Himei. rewrite !GetV_object.
  cbn [heap sent ticks strict_eq_string Set_has].
  rewrite String.eqb_refl, (bool_decide_eq_true_2 _ Hin). cbn [negb].
  assert ((if strict_eq_number (property (VObj pp) "latitude") (num 0)
           then strict_eq_number (property (VObj pp) "longitude") (num 0)
           else false) = false) as Hz.
  { destruct (strict_eq_number (property (VObj pp) "latitude") (num 0)) eqn:Hz1; [|done].
    destruct (strict_eq_number (property (VObj pp) "longitude") (num 0)) eqn:Hz2; [|done].
    exfalso. apply Hzero. by apply strict_eq_number_spec in Hz1, Hz2. }
  destruct (strict_eq_number (property (VObj pp) "latitude") (num 0));
    [rewrite Hz|]; cbn [error getLogger]; cbv beta; cbn [heap sent ticks].
  all: rewrite (ToString_primitive h _ _ Hslat); cbv beta iota;
    rewrite (ToString_primitive h _ _ Hslon); cbv beta iota;
    cbn [heap sent ticks].
  all: unfold forward_report, log_call;
    destruct (network env (length s)) as [resp|err];
    [destruct (ok resp); cbn [negb]; [|destruct (json resp)] |];
    rewrite ?log_eq, ?or_else_error_text; cbn [heap sent ticks];
    try destruct (logging_enabled cfg); cbn [length];
    rewrite <- ?app_assoc, ?Nat.add_0_r, ?Nat.add_1_r; reflexivity.
Qed.

(** From the selection on, the handler runs on the selected event alone. *)
Lemma main_selected event context (w : World) (e : value) :
  selects cfg event w e ->
  exists w2,
    heap w ⊆ heap w2 /\
    sent w2 = sent w ++ debug_log cfg env event context w /\
    ticks w2 = (ticks w + length (debug_log cfg env event context w))%nat /\
    main cfg env event context w =
    main_outboundEvent cfg env (getLogger cfg env event context) e w2.
Proof.
  intros (Hauth & Hpost & l & evs & Hevents & Hl & Hnum & He).
  pose proof (elements_lookup _ _ _ Hl) as Helems.
  destruct (main_selects cfg env event context l w Hauth Hpost Hevents)
    as (w2 & Hheap & Hsent & Hticks & Hrun); [by rewrite Helems|].
  rewrite Helems in Hrun. exists w2. repeat split; try done.
  destruct evs as [|x evs].
  { apply is_latest_elem in He. by apply elem_of_nil in He. }
  destruct Hrun as (e' & He' & Hrun).
  by rewrite (is_latest_unique _ _ _ He He').
Qed.

End Forwarding.

Section Reports.
Context {js : Engine} (cfg : Config) (env : Env).

Lemma passes_filters_tracked (e : value) : passes_filters cfg e -> tracked cfg e.
Proof. intros (Himei & Hcode & _). by split. Qed.

(** The requests of a run that forwards the selected event. *)
Lemma main_forwards event context (w : World) (ps pp : list (string * value))
    (code : number) (slat slon : string) :
  selects cfg event w (VObj ps) ->
  tracked cfg (VObj ps) ->
  property (VObj ps) "messageCode" = VNum code ->
  property (VObj ps) "point" = VObj pp ->
  primitive_string (property (VObj pp) "latitude") = Some slat ->
  primitive_string (property (VObj pp) "longitude") = Some slon ->
  ~ (property (VObj pp) "latitude" = VNum (num 0) /\
     property (VObj pp) "longitude" = VNum (num 0)) ->
  completion (main cfg env event context) w = Return {| statusCode := num 200 |} /\
  issued (main cfg env event context) w =
  debug_log cfg env event context w
    ++ forward_request cfg
         {| Recipients := [TRACKING_RECEIVER_DEVICE_IMEI cfg];
            Sender := TRACKING_SENDER_INREACH_ADDRESS cfg;
            Timestamp :=
              clock env (ticks w + length (debug_log cfg env event context w));
            Message :=
              or_else (messageCodeToReceiverText code) "Location Update"
                +:+ ": lat " +:+ slat +:+ " lon " +:+ slon;
            ReferencePoint :=
              {| LocationType := "GPSLocation";
                 Altitude := property (VObj pp) "altitude";
                 Speed := property (VObj pp) "speed";
                 Course := property (VObj pp) "course";
                 Coordinate :=
                   {| Latitude := property (VObj pp) "latitude";
                      Longitude := property (VObj pp) "longitude" |} |} |}
    :: forward_report cfg env event context
         (network env
            (length (sent w) + length (debug_log cfg env event context w)))
         (S (ticks w + length (debug_log cfg env event context w))).
Proof.
  intros Hsel Htracked Hc Hp Hslat Hslon Hzero.
  destruct (main_selected cfg env event context w _ Hsel)
    as (w2 & _ & Hsent & Hticks & Hrun).
  rewrite (main_outboundEvent_forwards cfg env event context ps pp w2 code slat slon
             Htracked Hc Hp Hslat Hslon Hzero) in Hrun.
  split; [by apply (completion_run _ _ _ _ Hrun)|].
  erewrite issued_app; [|exact Hrun|].
  2:{ cbn [sent]. rewrite Hsent, <- app_assoc. reflexivity. }
  by rewrite Hticks, ?Hsent, length_app.
Qed.

(** The same for an event of the declared shape that passes the filters. *)
Lemma main_forwards_typed event context (w : World) (e : value) :
  selects cfg event w e ->
  is_IPCOutboundEvent e = true ->
  passes_filters cfg e ->
  exists m,
    completion (main cfg env event context) w = Return {| statusCode := num 200 |} /\
    issued (main cfg env event context) w =
    debug_log cfg env event context w
      ++ forward_request cfg m
      :: forward_report cfg env event context
           (network env
              (length (sent w) + length (debug_log cfg env event context w)))
           (S (ticks w + length (debug_log cfg env event context w))).
Proof.
  intros Hsel (ps & ts & pp & lat & lon & -> & _ & Hp & Hlat & Hlon)%is_IPCOutboundEvent_inv
    Hpass.
  pose proof (passes_filters_tracked _ Hpass) as Htracked.
  destruct (tracked_code cfg _ Htracked) as (code & Hc & _).
  destruct Hpass as (_ & _ & Hzero). rewrite Hp in Hzero.
  eexists. apply (main_forwards event context w ps pp code
                    (Number_toString lat) (Number_toString lon)); try done.
  - by rewrite Hlat.
  - by rewrite Hlon.
Qed.

End Reports.

Lemma selects_only_event (e : value) (t : number) :
  timeStamp_of e = Some t ->
  selects Fixtures.cfg Cases.post (Fixtures.world [e]) e.
Proof.
  intros Ht. split; [reflexivity|]. split; [reflexivity|].
  exists 1%positive, [e]. split; [reflexivity|]. split; [reflexivity|].
  split; [by repeat constructor|].
  exists [], [], t. split; [reflexivity|]. split; [done|]. split; constructor.
Qed.

Lemma report_passes_filters : passes_filters Fixtures.cfg Cases.report.
Proof. split; [reflexivity|]. split; [by left|]. intros [[=] _]. Qed.

(** X4.  A forward call that the inbound API accepts is not logged: for a
    selected event of the declared shape that passes the filters, when the
    forward call completes with an ok response the handler issues the debug
    log call (when the log sink is configured), the forward call, and
    nothing else, and it returns 200. *)
Theorem accepted_forward_is_not_logged {js : Engine} (cfg : Config) (env : Env)
    (event : InvocationEvent) (context : InvocationContext) (w : World)
    (e : value) (resp : Response) :
  selects cfg event w e ->
  is_IPCOutboundEvent e = true ->
  passes_filters cfg e ->
  network env (length (sent w) + length (debug_log cfg env event context w))
  = Return resp ->
  ok resp = true ->
  completion (main cfg env event context) w = Return {| statusCode := num 200 |} /\
  exists m,
    issued (main cfg env event context) w =
    debug_log cfg env event context w ++ [forward_request cfg m].
Proof.
  intros Hsel Hte Hpass Hreply Hok.
  destruct (main_forwards_typed cfg env event context w e Hsel Hte Hpass)
    as (m & Hdone & Hissued).
  split; [exact Hdone|].
  exists m. rewrite Hissued, Hreply. cbn [forward_report]. by rewrite Hok.
Qed.

Lemma accepted_forward_is_not_logged_witness :
  selects Fixtures.cfg Cases.post (Fixtures.world [Cases.report]) Cases.report /\
  is_IPCOutboundEvent Cases.report = true /\
  passes_filters Fixtures.cfg Cases.report /\
  completion (main (js := sample_engine) Fixtures.cfg Fixtures.env Cases.post
                Fixtures.context) (Fixtures.world [Cases.report])
  = Return {| statusCode := num 200 |} /\
  exists m,
    issued (main (js := sample_engine) Fixtures.cfg Fixtures.env Cases.post
              Fixtures.context) (Fixtures.world [Cases.report]) =
    debug_log Fixtures.cfg Fixtures.env Cases.post Fixtures.context
      (Fixtures.world [Cases.report]) ++ [forward_request Fixtures.cfg m].
Proof.
  split; [by apply (selects_only_event _ (num 100))|].
  split; [reflexivity|]. split; [apply report_passes_filters|].
  apply (accepted_forward_is_not_logged (js := sample_engine) Fixtures.cfg Fixtures.env
           Cases.post Fixtures.context (Fixtures.world [Cases.report]) Cases.report
           {| ok := true; status := num 200; json := Return VNull |}).
  - by apply (selects_only_event _ (num 100)).
  - reflexivity.
  - apply report_passes_filters.
  - reflexivity.
  - reflexivity.
Defined.

(** X5.  A forward call that the inbound API rejects with a JSON body is
    logged at level error as [IPC Inbound request rejected], with the
    status of the response and the parsed body; the handler still returns
    200. *)
Theorem rejected_forward_is_logged {js : Engine} (cfg : Config) (env : Env)
    (event : InvocationEvent) (context : InvocationContext) (w : World)
    (e : value) (resp : Response) (rejection : value) :
  selects cfg event w e ->
  is_IPCOutboundEvent e = true ->
  passes_filters cfg e ->
  network env (length (sent w) + length (debug_log cfg env event context w))
  = Return resp ->
  ok resp = false ->
  json resp = Return rejection ->
  completion (main cfg env event context) w = Return {| statusCode := num 200 |} /\
  exists m,
    issued (main cfg env event context) w =
    debug_log cfg env event context w
      ++ [forward_request cfg m]
      ++ log_call cfg env "IPC Inbound request rejected"
           [("status", VNum (status resp)); ("error", rejection)]
           "error" event context
           (S (ticks w + length (debug_log cfg env event context w))).
Proof.
  intros Hsel Hte Hpass Hreply Hok Hjson.
  destruct (main_forwards_typed cfg env event context w e Hsel Hte Hpass)
    as (m & Hdone & Hissued).
  split; [done|]. exists m.
  rewrite Hissued, Hreply. cbn [forward_report]. by rewrite Hok, Hjson.
Qed.

Lemma rejected_forward_is_logged_witness :
  selects Fixtures.cfg Cases.post (Fixtures.world [Cases.report]) Cases.report /\
  is_IPCOutboundEvent Cases.report = true /\
  passes_filters Fixtures.cfg Cases.report /\
  completion (main (js := sample_engine) Fixtures.cfg Fixtures.env_rejecting Cases.post
                Fixtures.context) (Fixtures.world [Cases.report])
  = Return {| statusCode := num 200 |} /\
  exists m,
    issued (main (js := sample_engine) Fixtures.cfg Fixtures.env_rejecting Cases.post
              Fixtures.context) (Fixtures.world [Cases.report]) =
    debug_log Fixtures.cfg Fixtures.env_rejecting Cases.post Fixtures.context
      (Fixtures.world [Cases.report])
      ++ [forward_request Fixtures.cfg m]
      ++ log_call Fixtures.cfg Fixtures.env_rejecting "IPC Inbound request rejected"
           [("status", VNum (num 422));
            ("error", VObj [("Message", VStr "rejected")])]
           "error" Cases.post Fixtures.context 2.
Proof.
  split; [by apply (selects_only_event _ (num 100))|].
  split; [reflexivity|]. split; [apply report_passes_filters|].
  apply (rejected_forward_is_logged (js := sample_engine) Fixtures.cfg
           Fixtures.env_rejecting Cases.post Fixtures.context
           (Fixtures.world [Cases.report]) Cases.report
           {| ok := false; status := num 422;
              json := Return (VObj [("Message", VStr "rejected")]) |}
           (VObj [("Message", VStr "rejected")])).
  - by apply (selects_only_event _ (num 100)).
  - reflexivity.
  - apply report_passes_filters.
  - reflexivity.
  - reflexivity.
  - reflexivity.
Defined.

(** X6.  A forward call whose [fetch] rejects (the network fails) is
    logged at level error as [Failed to send IPC Inbound request] with the
    message of the error, [Unknown error] when it has none; the handler
    still returns 200. *)
Theorem failed_forward_is_logged {js : Engine} (cfg : Config) (env : Env)
    (event : InvocationEvent) (context : InvocationContext) (w : World)
    (e : value) (err : Error) :
  selects cfg event w e ->
  is_IPCOutboundEvent e = true ->
  passes_filters cfg e ->
  network env (length (sent w) + length (debug_log cfg env event context w))
  = Throw err ->
  completion (main cfg env event context) w = Return {| statusCode := num 200 |} /\
  exists m,
    issued (main cfg env event context) w =
    debug_log cfg env event context w
      ++ [forward_request cfg m]
      ++ log_call cfg env "Failed to send IPC Inbound request"
           [("error",
             VStr (if String.eqb (message err) "" then "Unknown error"
                   else message err))]
           "error" event context
           (S (ticks w + length (debug_log cfg env event context w))).
Proof.
  intros Hsel Hte Hpass Hreply.
  destruct (main_forwards_typed cfg env event context w e Hsel Hte Hpass)
    as (m & Hdone & Hissued).
  split; [done|]. exists m. by rewrite Hissued, Hreply.
Qed.

Lemma failed_forward_is_logged_witness :
  selects Fixtures.cfg Cases.post (Fixtures.world [Cases.report]) Cases.report /\
  is_IPCOutboundEvent Cases.report = true /\
  passes_filters Fixtures.cfg Cases.report /\
  completion (main (js := sample_engine) Fixtures.cfg Cases.env_unreachable Cases.post
                Fixtures.context) (Fixtures.world [Cases.report])
  = Return {| statusCode := num 200 |} /\
  exists m,
    issued (main (js := sample_engine) Fixtures.cfg Cases.env_unreachable Cases.post
              Fixtures.context) (Fixtures.world [Cases.report]) =
    debug_log Fixtures.cfg Cases.env_unreachable Cases.post Fixtures.context
      (Fixtures.world [Cases.report])
      ++ [forward_request Fixtures.cfg m]
      ++ log_call Fixtures.cfg Cases.env_unreachable
           "Failed to send IPC Inbound request"
           [("error", VStr "Unknown error")]
           "error" Cases.post Fixtures.context 2.
Proof.
  split; [by apply (selects_only_event _ (num 100))|].
  split; [reflexivity|]. split; [apply report_passes_filters|].
  apply (failed_forward_is_logged (js := sample_engine) Fixtures.cfg
           Cases.env_unreachable Cases.post Fixtures.context
           (Fixtures.world [Cases.report]) Cases.report
           {| name := "TypeError"; message := "" |}).
  - by apply (selects_only_event _ (num 100)).
  - reflexivity.
  - apply report_passes_filters.
  - reflexivity.
Defined.

(** X7.  When the inbound API rejects the forward call with a body that is
    not JSON, [result.json()] throws inside the [try] block: the rejection
    is logged as [Failed to send IPC Inbound request] with the message of
    the parse error, and the status of the response is not logged. *)
Theorem unparsable_rejection_is_logged_as_failure {js : Engine} (cfg : Config)
    (env : Env) (event : InvocationEvent) (context : InvocationContext)
    (w : World) (e : value) (resp : Response) (err : Error) :
  selects cfg event w e ->
  is_IPCOutboundEvent e = true ->
  passes_filters cfg e ->
  network env (length (sent w) + length (debug_log cfg env event context w))
  = Return resp ->
  ok resp = false ->
  json resp = Throw err ->
  completion (main cfg env event context) w = Return {| statusCode := num 200 |} /\
  exists m,
    issued (main cfg env event context) w =
    debug_log cfg env event context w
      ++ [forward_request cfg m]
      ++ log_call cfg env "Failed to send IPC Inbound request"
           [("error",
             VStr (if String.eqb (message err) "" then "Unknown error"
                   else message err))]
           "error" event context
           (S (ticks w + length (debug_log cfg env event context w))).
Proof.
  intros Hsel Hte Hpass Hreply Hok Hjson.
  destruct (main_forwards_typed cfg env event context w e Hsel Hte Hpass)
    as (m & Hdone & Hissued).
  split; [done|]. exists m.
  rewrite Hissued, Hreply. cbn [forward_report]. by rewrite Hok, Hjson.
Qed.

Lemma unparsable_rejection_is_logged_as_failure_witness :
  selects Fixtures.cfg Cases.post (Fixtures.world [Cases.report]) Cases.report /\
  is_IPCOutboundEvent Cases.report = true /\
  passes_filters Fixtures.cfg Cases.report /\
  completion (main (js := sample_engine) Fixtures.cfg Cases.env_garbled Cases.post
                Fixtures.context) (Fixtures.world [Cases.report])
  = Return {| statusCode := num 200 |} /\
  exists m,
    issued (main (js := sample_engine) Fixtures.cfg Cases.env_garbled Cases.post
              Fixtures.context) (Fixtures.world [Cases.report]) =
    debug_log Fixtures.cfg Cases.env_garbled Cases.post Fixtures.context
      (Fixtures.world [Cases.report])
      ++ [forward_request Fixtures.cfg m]
      ++ log_call Fixtures.cfg Cases.env_garbled
           "Failed to send IPC Inbound request"
           [("error", VStr "Unexpected token < in JSON")]
           "error" Cases.post Fixtures.context 2.
Proof.
  split; [by apply (selects_only_event _ (num 100))|].
  split; [reflexivity|]. split; [apply report_passes_filters|].
  apply (unparsable_rejection_is_logged_as_failure (js := sample_engine) Fixtures.cfg
           Cases.env_garbled Cases.post Fixtures.context
           (Fixtures.world [Cases.report]) Cases.report
           {| ok := false; status := num 502;
              json := Throw {| name := "SyntaxError";
                               message := "Unexpected token < in JSON" |} |}
           {| name := "SyntaxError"; message := "Unexpected token < in JSON" |}).
  - by apply (selects_only_event _ (num 100)).
  - reflexivity.
  - apply report_passes_filters.
  - reflexivity.
  - reflexivity.
  - reflexivity.
Defined.

(** ** The log sink *)

Ltac log_record_done :=
  repeat match goal with
         | |- Forall _ [] => constructor
         | |- Forall _ (_ :: _) => constructor
         | |- is_forward _ = false -> _ =>
             let H := fresh in
             intros H; first
               [ discriminate H
               | split; [first [assumption | reflexivity]|];
                 eexists _, _, _, _; split; [reflexivity|];
                 first [left; reflexivity | right; reflexivity] ]
         end.

Section LogRecords.
Context {js : Engine} (cfg : Config) (env : Env).

Lemma logging_enabled_spec :
  logging_enabled cfg = true <->
  exists host token,
    BETTERSTACK_LOGS_HOST cfg = Some host /\ host <> "" /\
    BETTERSTACK_LOGS_BEARER_TOKEN cfg = Some token /\ token <> "".
Proof.
  unfold logging_enabled, falsy.
  destruct (BETTERSTACK_LOGS_HOST cfg) as [host|];
    destruct (BETTERSTACK_LOGS_BEARER_TOKEN cfg) as [token|]; cbn.
  - rewrite negb_true_iff, orb_false_iff, !String.eqb_neq. split.
    + intros [Hh Ht]. by exists host, token.
    + by intros (h & t & [= <-] & Hh & [= <-] & Ht).
  - rewrite orb_true_r. split; [done|]. by intros (h & t & _ & _ & [=] & _).
  - split; [done|]. by intros (h & t & [=] & _).
  - split; [done|]. by intros (h & t & [=] & _).
Qed.

Lemma main_outboundEvent_log_records event context (e : value) (w : World) :
  exists reqs,
    sent (main_outboundEvent cfg env (getLogger cfg env event context) e w).2
    = sent w ++ reqs /\
    Forall (fun r => is_forward r = false -> is_log_record cfg event context r) reqs.
Proof.
  destruct w as [h s t]. unfold is_log_record.
  unfold main_outboundEvent, forwardLocationUpdate, getLogger, bind, try_catch,
    lift, ret, get_heap, Date_now, fetch.
  run; cbn [heap sent ticks fst snd];
    repeat rewrite <- app_assoc; cbn [app];
    first [ exists []; split; [by rewrite app_nil_r|]
          | eexists; split; [reflexivity|] ];
    log_record_done.
Qed.

Lemma main_log_records event context (w : World) :
  Forall (fun r => is_forward r = false -> is_log_record cfg event context r)
    (issued (main cfg env event context) w).
Proof.
  destruct (isAuthorizedRequest cfg event) eqn:Hauth.
  2:{ rewrite (issued_unchanged _ w _ (main_unauthorized cfg env event context w Hauth)).
      constructor. }
  destruct (decide (WebEventHTTP.method <$> http event = Some "POST")) as [Hpost|Hpost].
  2:{ rewrite (issued_unchanged _ w _
                 (main_not_well_shaped cfg env event context w (or_introl Hpost))).
      constructor. }
  destruct (Events event) as [| | | | |l|] eqn:Hevents.
  1-5,7: rewrite (issued_unchanged _ w _
                    (main_not_well_shaped cfg env event context w
                       (or_intror (f_equal Array_isArray Hevents))));
    constructor.
  pose proof (main_well_shaped cfg env event context l w Hauth Hpost Hevents) as Hmain.
  set (w1 := after_debug_log cfg env event context w) in Hmain.
  assert (Forall (fun r => is_forward r = false -> is_log_record cfg event context r)
            (debug_log cfg env event context w)) as Hdbg.
  { unfold debug_log, is_log_record. destruct (logging_enabled cfg) eqn:Hon;
      log_record_done. }
  unfold bind at 1 in Hmain.
  pose proof (selection_heap (VArr l) w1) as Hsel. cbv zeta in Hsel.
  destruct ((copy <- spread (VArr l) ;;
             sorted <- Array_sort byTimeStamp copy ;;
             Array_pop sorted) w1) as [[e|err] w2];
    cbn [snd] in Hsel; destruct Hsel as (_ & Hs2 & _).
  - destruct (negb (ToBoolean e)).
    + rewrite (issued_app _ w w2 _ (debug_log cfg env event context w) Hmain); done.
    + destruct (main_outboundEvent_log_records event context e w2)
        as (reqs & Hsent & Hreqs).
      destruct (main_outboundEvent cfg env _ e w2) as [o w3] eqn:Hrest.
      cbn [snd] in Hsent.
      rewrite (issued_app _ w w3 _ (debug_log cfg env event context w ++ reqs) Hmain).
      * by apply Forall_app.
      * by rewrite Hsent, Hs2, app_assoc.
  - rewrite (issued_app _ w w2 _ (debug_log cfg env event context w) Hmain); done.
Qed.

End LogRecords.

(** X1.  [log] never throws and never touches the heap: when the host or
    the token of the log sink is unset or empty it does nothing; otherwise
    it issues exactly one POST to [https://<host>] with the bearer token,
    carrying the message, the level, the data, the context and the whole
    invocation event, stamped with the current time, and ignores how that
    request completes, a rejection included. *)
Theorem log_swallows_failures (cfg : Config) (env : Env) (message : string)
    (data : list (string * value)) (level : string) (event : InvocationEvent)
    (context : InvocationContext) (w : World) :
  completion (log cfg env message data level event context) w = Return tt /\
  heap (log cfg env message data level event context w).2 = heap w /\
  (logging_enabled cfg = true <->
   exists host token,
     BETTERSTACK_LOGS_HOST cfg = Some host /\ host <> "" /\
     BETTERSTACK_LOGS_BEARER_TOKEN cfg = Some token /\ token <> "") /\
  issued (log cfg env message data level event context) w =
  if logging_enabled cfg
  then [ {| url := "https://" +:+ default "" (BETTERSTACK_LOGS_HOST cfg);
            options :=
              {| body :=
                   JSON_LogRecord
                     {| dt := clock env (ticks w);
                        level_string := level;
                        message_string := message;
                        do_function_context :=
                          {| LogContext.activation_id := activationId context;
                             LogContext.apiHost := apiHost context;
                             LogContext.deadline := deadline context;
                             LogContext.function_name := functionName context;
                             LogContext.function_version := functionVersion context;
                             LogContext.namespace := namespace context;
                             LogContext.remaining_time :=
                               getRemainingTimeInMillis context |};
                        do_function_event := event;
                        data := data |};
                 headers :=
                   {| Authorization :=
                        "Bearer "
                          +:+ default "" (BETTERSTACK_LOGS_BEARER_TOKEN cfg);
                      Content_Type := "application/json" |};
                 method := "POST" |} |} ]
  else [].
Proof.
  unfold completion, issued. rewrite log_eq.
  split; [by destruct (logging_enabled cfg)|].
  split; [by destruct (logging_enabled cfg)|].
  split; [apply logging_enabled_spec|].
  destruct (logging_enabled cfg); cbn [snd sent].
  - by rewrite drop_app_length.
  - by rewrite drop_all.
Qed.

(** X2.  Every request of the handler other than the forward call is a
    record sent to the configured log sink (there is none when the sink is
    not configured), at level debug or error, about this invocation: it
    carries the invocation event, its [http] headers included. *)
Theorem other_requests_are_log_records {js : Engine} (cfg : Config) (env : Env)
    (event : InvocationEvent) (context : InvocationContext) (w : World) :
  Forall (fun r =>
            is_forward r = false ->
            logging_enabled cfg = true /\
            url r = "https://" +:+ default "" (BETTERSTACK_LOGS_HOST cfg) /\
            Authorization (headers (options r))
            = "Bearer " +:+ default "" (BETTERSTACK_LOGS_BEARER_TOKEN cfg) /\
            method (options r) = "POST" /\
            exists record,
              body (options r) = JSON_LogRecord record /\
              do_function_event record = event /\
              (level_string record = "debug" \/ level_string record = "error"))
    (issued (main cfg env event context) w).
Proof.
  eapply Forall_impl; [apply main_log_records|].
  intros r Hr Hfw. destruct (Hr Hfw) as (Hon & message & data & level & now & -> & Hlevel).
  split; [done|]. repeat split. eexists. repeat split. done.
Qed.

(** X3.  Without a configured log sink the handler issues at most one
    request, and that request is the forward call. *)
Theorem no_sink_no_log {js : Engine} (cfg : Config) (env : Env)
    (event : InvocationEvent) (context : InvocationContext) (w : World) :
  logging_enabled cfg = false ->
  issued (main cfg env event context) w = [] \/
  exists m, issued (main cfg env event context) w = [forward_request cfg m].
Proof.
  intros Hoff.
  pose proof (main_log_records cfg env event context w) as Hlogs.
  destruct (main_issued cfg env event context w)
    as (_ & dbg & fw & lg & Heq & Hdbg & Hfw & Hlg).
  rewrite Heq in Hlogs |- *. rewrite !Forall_app in Hlogs.
  destruct Hlogs as (Hl1 & _ & Hl2).
  assert (forall l : list Request,
            at_most_one_log l ->
            Forall (fun r => is_forward r = false -> is_log_record cfg event context r) l ->
            l = []) as Hnone.
  { intros l [->|(r & -> & Hr)] Hall; [done|].
    apply Forall_cons in Hall as [Hrec _].
    destruct (Hrec Hr) as [Hon _]. congruence. }
  rewrite (Hnone dbg Hdbg Hl1), (Hnone lg Hlg Hl2), app_nil_r. cbn [app].
  destruct Hfw as [->|(m & ->)]; [by left | right; by exists m].
Qed.

Lemma no_sink_no_log_witness :
  logging_enabled Cases.cfg_without_sink = false /\
  (issued (main (js := sample_engine) Cases.cfg_without_sink Fixtures.env_rejecting
             Cases.post Fixtures.context) (Fixtures.world [Cases.report]) = [] \/
   exists m,
     issued (main (js := sample_engine) Cases.cfg_without_sink Fixtures.env_rejecting
               Cases.post Fixtures.context) (Fixtures.world [Cases.report])
     = [forward_request Cases.cfg_without_sink m]).
Proof.
  split; [reflexivity|].
  apply (no_sink_no_log (js := sample_engine) Cases.cfg_without_sink
           Fixtures.env_rejecting Cases.post Fixtures.context
           (Fixtures.world [Cases.report])).
  reflexivity.
Defined.

(** ** The selection on batches of any content *)

Section AnyBatch.
Context {js : Engine} (cfg : Config) (env : Env).

(** The selection completes as the sort of the elements does, with the
    last of the sorted elements. *)
Lemma selection_outcome (l : loc) (w : World) :
  exists w2,
    heap w ⊆ heap w2 /\ sent w2 = sent w /\ ticks w2 = ticks w /\
    (copy <- spread (VArr l) ;;
     sorted <- Array_sort byTimeStamp copy ;;
     Array_pop sorted) w =
    (match sorted_elements
             (byTimeStamp (<[fresh (dom (heap w)) := elements (heap w) l]> (heap w)))
             (elements (heap w) l) with
     | Return s => Return (default VUndefined (last s))
     | Throw err => Throw err
     end, w2).
Proof.
  pose proof (selection_heap (VArr l) w) as Hheap. cbv zeta in Hheap.
  destruct ((copy <- spread (VArr l) ;;
             sorted <- Array_sort byTimeStamp copy ;;
             Array_pop sorted) w) as [o w2] eqn:Hrun.
  exists w2. cbn [snd] in Hheap. destruct Hheap as (Hh & Hs & Ht).
  repeat split; try done. f_equal.
  destruct w as [h s t]. cbn [heap] in *.
  unfold bind, spread, Array_sort, Array_pop, set_heap in Hrun.
  cbn [heap sent ticks] in Hrun. rewrite !elements_insert in Hrun.
  destruct (sorted_elements _ (elements h l)) as [srt|err].
  - cbn [heap sent ticks] in Hrun. rewrite !elements_insert in Hrun.
    destruct (last srt); by simplify_eq.
  - by simplify_eq.
Qed.

(** The run of the handler on an authorized POST with an array, by the
    completion of the sort. *)
Lemma main_by_sort event context (l : loc) (w : World) :
  isAuthorizedRequest cfg event = true ->
  WebEventHTTP.method <$> http event = Some "POST" ->
  Events event = VArr l ->
  exists w2,
    heap w ⊆ heap w2 /\
    sent w2 = sent w ++ debug_log cfg env event context w /\
    ticks w2 = (ticks w + length (debug_log cfg env event context w))%nat /\
    main cfg env event context w =
    match sorted_elements
            (byTimeStamp (<[fresh (dom (heap w)) := elements (heap w) l]> (heap w)))
            (elements (heap w) l) with
    | Return s =>
        if ToBoolean (default VUndefined (last s))
        then main_outboundEvent cfg env (getLogger cfg env event context)
               (default VUndefined (last s)) w2
        else (Return {| statusCode := num 200 |}, w2)
    | Throw err => (Throw err, w2)
    end.
Proof.
  intros Hauth Hpost Hevents.
  rewrite (main_well_shaped cfg env event context l w Hauth Hpost Hevents).
  destruct (selection_outcome l (after_debug_log cfg env event context w))
    as (w2 & Hh & Hs & Ht & Hrun).
  exists w2. split; [done|]. split; [done|]. split; [done|].
  unfold bind at 1. rewrite Hrun. cbn [heap after_debug_log].
  destruct (sorted_elements _ _) as [srt|err]; [|done].
  by destruct (ToBoolean _).
Qed.

Lemma sorted_elements_singleton (comparefn : value -> value -> outcome (option number))
    (v : value) :
  sorted_elements comparefn [v] = Return [v].
Proof.
  unfold sorted_elements. destruct (is_undefined v) eqn:Hv.
  - rewrite filter_cons_False by (by rewrite Hv).
    rewrite filter_cons_True by done. done.
  - rewrite filter_cons_True by done.
    rewrite filter_cons_False by (by rewrite Hv). done.
Qed.

End AnyBatch.

(** X8.  A batch of one event is never compared: its event is selected
    whatever it is.  When it is falsy ([null], [false], [0], the empty
    string) the handler returns 200 as for an empty batch; otherwise the
    handler goes on with it. *)
Theorem single_event_is_selected {js : Engine} (cfg : Config) (env : Env)
    (event : InvocationEvent) (context : InvocationContext) (l : loc)
    (v : value) (w : World) :
  isAuthorizedRequest cfg event = true ->
  WebEventHTTP.method <$> http event = Some "POST" ->
  Events event = VArr l ->
  heap w !! l = Some [v] ->
  exists w2,
    heap w ⊆ heap w2 /\
    sent w2 = sent w ++ debug_log cfg env event context w /\
    main cfg env event context w =
    if ToBoolean v
    then main_outboundEvent cfg env (getLogger cfg env event context) v w2
    else (Return {| statusCode := num 200 |}, w2).
Proof.
  intros Hauth Hpost Hevents Hl.
  destruct (main_by_sort cfg env event context l w Hauth Hpost Hevents)
    as (w2 & Hh & Hs & _ & Hrun).
  rewrite (elements_lookup _ _ _ Hl), sorted_elements_singleton in Hrun.
  by exists w2.
Qed.

Lemma single_event_is_selected_witness :
  exists w2,
    heap (Fixtures.world [VNull]) ⊆ heap w2 /\
    sent w2 = sent (Fixtures.world [VNull])
              ++ debug_log Fixtures.cfg Fixtures.env Cases.post Fixtures.context
                   (Fixtures.world [VNull]) /\
    main (js := sample_engine) Fixtures.cfg Fixtures.env Cases.post Fixtures.context
      (Fixtures.world [VNull]) =
    if ToBoolean VNull
    then main_outboundEvent (js := sample_engine) Fixtures.cfg Fixtures.env
           (getLogger Fixtures.cfg Fixtures.env Cases.post Fixtures.context) VNull w2
    else (Return {| statusCode := num 200 |}, w2).
Proof.
  apply (single_event_is_selected (js := sample_engine) Fixtures.cfg Fixtures.env
           Cases.post Fixtures.context 1%positive VNull (Fixtures.world [VNull]));
    reflexivity.
Defined.

Section Untimed.
Context {js : Engine}.

Lemma byTimeStamp_untimed (h : Heap) (a b : value) :
  GetV a "timeStamp" = Return VUndefined ->
  GetV b "timeStamp" = Return VUndefined ->
  byTimeStamp h a b = Return None.
Proof. unfold byTimeStamp. by intros -> ->. Qed.

Lemma sort_list_untimed (h : Heap) (l : list value) :
  Forall (fun v => GetV v "timeStamp" = Return VUndefined) l ->
  sort_list (byTimeStamp h) l = Return l.
Proof.
  induction 1 as [|x l Hx Hl IH]; [done|].
  cbn [sort_list]. rewrite IH. cbn [obind].
  destruct Hl as [|y l Hy Hl]; [done|].
  cbn [sort_insert]. by rewrite (byTimeStamp_untimed h x y Hx Hy).
Qed.

Lemma sorted_elements_untimed (h : Heap) (l : list value) :
  Forall (fun v => GetV v "timeStamp" = Return VUndefined) l ->
  sorted_elements (byTimeStamp h) l = Return l.
Proof.
  intros Hl. unfold sorted_elements.
  assert (filter (fun v => is_undefined v = false) l = l /\
          filter (fun v => is_undefined v = true) l = []) as [-> ->].
  { induction Hl as [|x l Hx Hl [IH1 IH2]]; [done|].
    assert (is_undefined x = false) as Hd by by destruct x.
    rewrite filter_cons_True by done.
    rewrite filter_cons_False by (by rewrite Hd). by rewrite IH1, IH2. }
  rewrite (sort_list_untimed h l Hl). cbn [obind]. by rewrite app_nil_r.
Qed.

(** Whatever the comparison function does, a sort that returns keeps the
    elements. *)
Lemma sort_insert_length (comparefn : value -> value -> outcome (option number))
    (x : value) (s r : list value) :
  sort_insert comparefn x s = Return r -> length r = S (length s).
Proof.
  revert r. induction s as [|y s IH]; intros r; cbn [sort_insert].
  - by intros [= <-].
  - destruct (comparefn x y) as [v|]; [|done]. cbn [obind].
    destruct (comes_after v); [|by intros [= <-]].
    destruct (sort_insert comparefn x s) as [r'|]; [|done]. cbn [obind].
    intros [= <-]. cbn [length]. by rewrite (IH r').
Qed.

Lemma sort_list_length (comparefn : value -> value -> outcome (option number))
    (l s : list value) :
  sort_list comparefn l = Return s -> length s = length l.
Proof.
  revert s. induction l as [|x l IH]; intros s; cbn [sort_list].
  - by intros [= <-].
  - destruct (sort_list comparefn l) as [s'|]; [|done]. cbn [obind].
    intros Hins%sort_insert_length. by rewrite Hins, (IH s').
Qed.

Lemma sort_list_singleton (comparefn : value -> value -> outcome (option number))
    (x : value) :
  sort_list comparefn [x] = Return [x].
Proof. reflexivity. Qed.

(** The sort of two or more elements, none [undefined] and one [null],
    throws: the comparison function reads [timeStamp] of [null]. *)
Lemma sort_list_null (h : Heap) (l : list value) :
  VNull ∈ l -> VUndefined ∉ l -> (2 <= length l)%nat ->
  exists err, sort_list (byTimeStamp h) l = Throw err.
Proof.
  induction l as [|x l IH]; [by intros ?%elem_of_nil|].
  intros Hnull Hdef Hlen. cbn [sort_list].
  destruct (sort_list (byTimeStamp h) l) as [s|err] eqn:Hsort; [|by exists err].
  cbn [obind]. pose proof (sort_list_length _ _ _ Hsort) as Hslen.
  destruct s as [|y s]; [cbn in Hlen, Hslen; lia|].
  cbn [sort_insert].
  assert (x <> VUndefined) as Hx by (intros ->; apply Hdef; by left).
  assert (x = VNull \/ x <> VNull) as [->|Hxn]
    by (destruct x; (by left) || (by right)).
  { unfold byTimeStamp. cbn [GetV obind]. by eexists. }
  assert (VNull ∈ l) as Hl by (apply elem_of_cons in Hnull as [?|?]; congruence).
  assert (VUndefined ∉ l) as Hdl by (intros ?; apply Hdef; by right).
  destruct (decide (2 <= length l)%nat) as [Hl2|Hl1].
  { destruct (IH Hl Hdl Hl2) as [err Herr]. congruence. }
  destruct l as [|z [|z' l]]; [by apply elem_of_nil in Hl| |cbn in Hl1; lia].
  apply list_elem_of_singleton in Hl. subst z.
  cbn in Hsort. injection Hsort as <- <-.
  unfold byTimeStamp.
  destruct (GetV x "timeStamp") as [tx|err] eqn:Hget; cbn [obind]; by eexists.
Qed.

End Untimed.

Section Edges.
Context {js : Engine} (cfg : Config) (env : Env).

Lemma selects_object event (w : World) (e : value) :
  selects cfg event w e -> exists ps, e = VObj ps.
Proof.
  intros (_ & _ & l & evs & _ & _ & _ & (_ & _ & te & _ & Hte & _)).
  destruct e; try done. by eexists.
Qed.

Lemma tracked_dec (e : value) : {tracked cfg e} + {~ tracked cfg e}.
Proof.
  unfold tracked.
  destruct (value_eq_VStr_dec (property e "imei") (TRACKING_SENDER_DEVICE_IMEI cfg));
    [|right; tauto].
  destruct (value_eq_VNum_dec (property e "messageCode") (num 0)); [left; tauto|].
  destruct (value_eq_VNum_dec (property e "messageCode") (num 10)); [left; tauto|].
  destruct (value_eq_VNum_dec (property e "messageCode") (num 12));
    [left; tauto|right; tauto].
Qed.

(** An object that is not a tracking event of the sender: the handler
    stops before it reads the point. *)
Lemma main_outboundEvent_untracked event context (ps : list (string * value))
    (w : World) :
  ~ tracked cfg (VObj ps) ->
  main_outboundEvent cfg env (getLogger cfg env event context) (VObj ps) w =
  (Return {| statusCode := num 200 |}, w).
Proof.
  intros Hnot. unfold main_outboundEvent, bind, lift, ret. rewrite !GetV_object.
  destruct (strict_eq_string _ _) eqn:Himei; [|done]. cbn [negb].
  destruct (Set_has _ _) eqn:Hcode; [|done].
  exfalso. apply Hnot. split.
  - by apply strict_eq_string_spec.
  - by apply Set_has_spec.
Qed.

(** A tracking event of the sender without a point: reading
    [point.latitude] throws. *)
Lemma main_outboundEvent_pointless event context (ps : list (string * value))
    (w : World) :
  tracked cfg (VObj ps) ->
  property (VObj ps) "point" = VUndefined \/ property (VObj ps) "point" = VNull ->
  exists err,
    main_outboundEvent cfg env (getLogger cfg env event context) (VObj ps) w =
    (Throw err, w) /\ name err = "TypeError".
Proof.
  intros Htracked Hpoint.
  destruct (tracked_code cfg _ Htracked) as (code & Hc & Hin).
  destruct Htracked as (Himei & _).
  unfold main_outboundEvent, bind, lift, ret. rewrite !GetV_object, Himei, Hc.
  cbn [strict_eq_string Set_has].
  rewrite String.eqb_refl, (bool_decide_eq_true_2 _ Hin). cbn [negb].
  destruct Hpoint as [-> | ->]; cbn [GetV]; by eexists.
Qed.

End Edges.

(** X9.  When no event of the batch has a [timeStamp] (the property is
    absent, or the events are numbers, strings, booleans or arrays), every
    comparison gives NaN, which the sort reads as equal: the order is kept
    and the last event of the batch in input order is selected. *)
Theorem untimed_batch_selects_last {js : Engine} (cfg : Config) (env : Env)
    (event : InvocationEvent) (context : InvocationContext) (l : loc)
    (evs : list value) (e : value) (w : World) :
  isAuthorizedRequest cfg event = true ->
  WebEventHTTP.method <$> http event = Some "POST" ->
  Events event = VArr l ->
  heap w !! l = Some (evs ++ [e]) ->
  Forall (fun v => GetV v "timeStamp" = Return VUndefined) (evs ++ [e]) ->
  exists w2,
    heap w ⊆ heap w2 /\
    sent w2 = sent w ++ debug_log cfg env event context w /\
    main cfg env event context w =
    if ToBoolean e
    then main_outboundEvent cfg env (getLogger cfg env event context) e w2
    else (Return {| statusCode := num 200 |}, w2).
Proof.
  intros Hauth Hpost Hevents Hl Huntimed.
  destruct (main_by_sort cfg env event context l w Hauth Hpost Hevents)
    as (w2 & Hh & Hs & _ & Hrun).
  rewrite (elements_lookup _ _ _ Hl), (sorted_elements_untimed _ _ Huntimed) in Hrun.
  rewrite last_snoc in Hrun. by exists w2.
Qed.

(** Two events of the sender without a [timeStamp]: the first would be
    forwarded, the second is not a tracking event; the second is selected
    and nothing is forwarded. *)
Lemma untimed_batch_selects_last_witness :
  let first :=
    VObj [("imei", VStr Fixtures.sender); ("messageCode", VNum (num 0));
          ("point", Fixtures.point (num 10) (num 20))] in
  let second :=
    VObj [("imei", VStr Fixtures.sender); ("messageCode", VNum (num 3));
          ("point", Fixtures.point (num 11) (num 21))] in
  Forall (fun v => GetV v "timeStamp" = Return VUndefined) ([first] ++ [second]) /\
  (exists w2,
     heap (Fixtures.world ([first] ++ [second])) ⊆ heap w2 /\
     sent w2 = sent (Fixtures.world ([first] ++ [second]))
               ++ debug_log Fixtures.cfg Fixtures.env Cases.post Fixtures.context
                    (Fixtures.world ([first] ++ [second])) /\
     main (js := sample_engine) Fixtures.cfg Fixtures.env Cases.post Fixtures.context
       (Fixtures.world ([first] ++ [second])) =
     if ToBoolean second
     then main_outboundEvent (js := sample_engine) Fixtures.cfg Fixtures.env
            (getLogger Fixtures.cfg Fixtures.env Cases.post Fixtures.context)
            second w2
     else (Return {| statusCode := num 200 |}, w2)) /\
  filter (fun r => is_forward r = true)
    (issued (main (js := sample_engine) Fixtures.cfg Fixtures.env Cases.post
               Fixtures.context) (Fixtures.world ([first] ++ [second]))) = [].
Proof.
  cbv zeta. split; [by repeat constructor|]. split; [|by vm_compute].
  apply (untimed_batch_selects_last (js := sample_engine) Fixtures.cfg Fixtures.env
           Cases.post Fixtures.context 1%positive
           [VObj [("imei", VStr Fixtures.sender); ("messageCode", VNum (num 0));
                  ("point", Fixtures.point (num 10) (num 20))]]
           (VObj [("imei", VStr Fixtures.sender); ("messageCode", VNum (num 3));
                  ("point", Fixtures.point (num 11) (num 21))]));
    try reflexivity.
  by repeat constructor.
Defined.

(** X10.  A batch of two or more events one of which is [null] makes the
    comparison function of the sort throw (it reads [timeStamp] of [null]
    outside any [try] block): the promise of the handler rejects, after the
    debug log call and without a forward call. *)
Theorem null_event_rejects {js : Engine} (cfg : Config) (env : Env)
    (event : InvocationEvent) (context : InvocationContext) (l : loc)
    (evs : list value) (w : World) :
  isAuthorizedRequest cfg event = true ->
  WebEventHTTP.method <$> http event = Some "POST" ->
  Events event = VArr l ->
  heap w !! l = Some evs ->
  VNull ∈ evs ->
  VUndefined ∉ evs ->
  (2 <= length evs)%nat ->
  exists err,
    completion (main cfg env event context) w = Throw err /\
    issued (main cfg env event context) w = debug_log cfg env event context w.
Proof.
  intros Hauth Hpost Hevents Hl Hnull Hdef Hlen.
  destruct (main_by_sort cfg env event context l w Hauth Hpost Hevents)
    as (w2 & _ & Hs & _ & Hrun).
  rewrite (elements_lookup _ _ _ Hl) in Hrun. unfold sorted_elements in Hrun.
  assert (filter (fun v => is_undefined v = false) evs = evs) as Hfilter.
  { clear -Hdef. induction evs as [|x evs IH]; [done|].
    rewrite filter_cons_True.
    - rewrite IH; [done|]. intros ?. apply Hdef. by right.
    - destruct x; try done. exfalso. apply Hdef. by left. }
  rewrite Hfilter in Hrun.
  destruct (sort_list_null (<[fresh (dom (heap w)) := evs]> (heap w)) evs Hnull Hdef Hlen)
    as [err Herr].
  rewrite Herr in Hrun. cbn [obind] in Hrun. exists err.
  split; [by apply (completion_run _ _ _ _ Hrun)|].
  by apply (issued_app _ w w2 _ _ Hrun).
Qed.

Lemma null_event_rejects_witness :
  (VNull ∈ [Cases.report; VNull]) /\
  (VUndefined ∉ [Cases.report; VNull]) /\
  (2 <= length [Cases.report; VNull])%nat /\
  exists err,
    completion (main (js := sample_engine) Fixtures.cfg Fixtures.env Cases.post
                  Fixtures.context) (Fixtures.world [Cases.report; VNull])
    = Throw err /\
    issued (main (js := sample_engine) Fixtures.cfg Fixtures.env Cases.post
              Fixtures.context) (Fixtures.world [Cases.report; VNull])
    = debug_log Fixtures.cfg Fixtures.env Cases.post Fixtures.context
        (Fixtures.world [Cases.report; VNull]).
Proof.
  assert (VNull ∈ [Cases.report; VNull]) as Hnull by (right; left).
  assert (VUndefined ∉ [Cases.report; VNull]) as Hdef.
  { intros H. apply elem_of_cons in H as [H|H]; [done|].
    apply list_elem_of_singleton in H. done. }
  split; [exact Hnull|]. split; [exact Hdef|]. split; [cbn; lia|].
  apply (null_event_rejects (js := sample_engine) Fixtures.cfg Fixtures.env
           Cases.post Fixtures.context 1%positive [Cases.report; VNull]
           (Fixtures.world [Cases.report; VNull]));
    try reflexivity; try done.
Defined.

(** X11.  A selected event of the sender with a tracking code whose
    [point] is missing or [null] makes the handler throw a [TypeError]
    when it reads [point.latitude], outside the [try] block: the promise
    rejects and no forward call is issued. *)
Theorem tracked_event_without_point_rejects {js : Engine} (cfg : Config)
    (env : Env) (event : InvocationEvent) (context : InvocationContext)
    (w : World) (e : value) :
  selects cfg event w e ->
  tracked cfg e ->
  property e "point" = VUndefined \/ property e "point" = VNull ->
  exists err,
    completion (main cfg env event context) w = Throw err /\
    name err = "TypeError" /\
    issued (main cfg env event context) w = debug_log cfg env event context w.
Proof.
  intros Hsel Htracked Hpoint.
  destruct (selects_object cfg event w e Hsel) as [ps ->].
  destruct (main_selected cfg env event context w _ Hsel)
    as (w2 & _ & Hsent & _ & Hrun).
  destruct (main_outboundEvent_pointless cfg env event context ps w2 Htracked Hpoint)
    as (err & Hthrow & Hname).
  rewrite Hthrow in Hrun. exists err.
  split; [by apply (completion_run _ _ _ _ Hrun)|]. split; [done|].
  by apply (issued_app _ w w2 _ _ Hrun).
Qed.

Lemma tracked_event_without_point_rejects_witness :
  selects Fixtures.cfg Cases.post (Fixtures.world [Fixtures.pointless])
    Fixtures.pointless /\
  tracked Fixtures.cfg Fixtures.pointless /\
  exists err,
    completion (main (js := sample_engine) Fixtures.cfg Fixtures.env Cases.post
                  Fixtures.context) (Fixtures.world [Fixtures.pointless])
    = Throw err /\
    name err = "TypeError" /\
    issued (main (js := sample_engine) Fixtures.cfg Fixtures.env Cases.post
              Fixtures.context) (Fixtures.world [Fixtures.pointless])
    = debug_log Fixtures.cfg Fixtures.env Cases.post Fixtures.context
        (Fixtures.world [Fixtures.pointless]).
Proof.
  assert (tracked Fixtures.cfg Fixtures.pointless) as Htracked
    by (split; [reflexivity | by left]).
  split; [by apply (selects_only_event _ (num 100))|]. split; [exact Htracked|].
  apply (tracked_event_without_point_rejects (js := sample_engine) Fixtures.cfg
           Fixtures.env Cases.post Fixtures.context
           (Fixtures.world [Fixtures.pointless]) Fixtures.pointless).
  - by apply (selects_only_event _ (num 100)).
  - exact Htracked.
  - by left.
Defined.

(** X12.  The device and message-code filters come before the point is
    read: a selected event that is not from the configured sender, or whose
    message code is not 0, 10 or 12, is dropped with 200 and without a
    forward call whatever its point is, a missing point included. *)
Theorem untracked_event_is_dropped {js : Engine} (cfg : Config) (env : Env)
    (event : InvocationEvent) (context : InvocationContext) (w : World)
    (e : value) :
  selects cfg event w e ->
  ~ tracked cfg e ->
  completion (main cfg env event context) w = Return {| statusCode := num 200 |} /\
  issued (main cfg env event context) w = debug_log cfg env event context w.
Proof.
  intros Hsel Hnot.
  destruct (selects_object cfg event w e Hsel) as [ps ->].
  destruct (main_selected cfg env event context w _ Hsel)
    as (w2 & _ & Hsent & _ & Hrun).
  rewrite (main_outboundEvent_untracked cfg env event context ps w2 Hnot) in Hrun.
  split; [by apply (completion_run _ _ _ _ Hrun)|].
  by apply (issued_app _ w w2 _ _ Hrun).
Qed.

Lemma untracked_event_is_dropped_witness :
  selects Fixtures.cfg Cases.post (Fixtures.world [Cases.stranger]) Cases.stranger /\
  ~ tracked Fixtures.cfg Cases.stranger /\
  completion (main (js := sample_engine) Fixtures.cfg Fixtures.env Cases.post
                Fixtures.context) (Fixtures.world [Cases.stranger])
  = Return {| statusCode := num 200 |} /\
  issued (main (js := sample_engine) Fixtures.cfg Fixtures.env Cases.post
            Fixtures.context) (Fixtures.world [Cases.stranger])
  = debug_log Fixtures.cfg Fixtures.env Cases.post Fixtures.context
      (Fixtures.world [Cases.stranger]).
Proof.
  assert (~ tracked Fixtures.cfg Cases.stranger) as Hnot by (intros [[=] _]).
  split; [by apply (selects_only_event _ (num 100))|]. split; [exact Hnot|].
  apply (untracked_event_is_dropped (js := sample_engine) Fixtures.cfg Fixtures.env
           Cases.post Fixtures.context (Fixtures.world [Cases.stranger])
           Cases.stranger).
  - by apply (selects_only_event _ (num 100)).
  - exact Hnot.
Defined.

(** X13.  The coordinates of the point are not validated: for a selected
    tracking event of the sender whose point is an object, whatever
    primitives its [latitude] and [longitude] are ([undefined] when
    missing, [null], strings, booleans, numbers), unless both are the
    number 0, the event is forwarded and the text of the message prints
    them as the template literal does ("undefined" for a missing
    coordinate). *)
Theorem primitive_coordinates_are_forwarded {js : Engine} (cfg : Config)
    (env : Env) (event : InvocationEvent) (context : InvocationContext)
    (w : World) (e : value) (code : number) (slat slon : string) :
  selects cfg event w e ->
  tracked cfg e ->
  property e "messageCode" = VNum code ->
  is_object (property e "point") = true ->
  primitive_string (property (property e "point") "latitude") = Some slat ->
  primitive_string (property (property e "point") "longitude") = Some slon ->
  ~ (property (property e "point") "latitude" = VNum (num 0) /\
     property (property e "point") "longitude" = VNum (num 0)) ->
  exists m,
    filter (fun r => is_forward r = true) (issued (main cfg env event context) w)
    = [forward_request cfg m] /\
    Message m =
    or_else (messageCodeToReceiverText code) "Location Update"
      +:+ ": lat " +:+ slat +:+ " lon " +:+ slon /\
    Coordinate (ReferencePoint m) =
    {| Latitude := property (property e "point") "latitude";
       Longitude := property (property e "point") "longitude" |}.
Proof.
  intros Hsel Htracked Hc Hobj Hslat Hslon Hzero.
  destruct (selects_object cfg event w e Hsel) as [ps ->].
  destruct (property (VObj ps) "point") as [| | | | | |pp] eqn:Hp; try done.
  destruct (main_forwards cfg env event context w ps pp code slat slon
              Hsel Htracked Hc Hp Hslat Hslon Hzero) as (_ & Hissued).
  assert (filter (fun r => is_forward r = true)
            (debug_log cfg env event context w) = []) as Hdebug.
  { unfold debug_log. by destruct (logging_enabled cfg). }
  assert (forall reply t,
            filter (fun r => is_forward r = true)
              (forward_report cfg env event context reply t) = []) as Hreport.
  { intros reply t. unfold forward_report, log_call.
    destruct reply as [resp|err]; [destruct (ok resp); [done|destruct (json resp)]|];
      by destruct (logging_enabled cfg). }
  eexists. split.
  { rewrite Hissued, filter_app, filter_cons_True
      by apply is_forward_forward_request.
    by rewrite Hdebug, Hreport. }
  split; reflexivity.
Qed.

Lemma primitive_coordinates_are_forwarded_witness :
  selects Fixtures.cfg Cases.post (Fixtures.world [Cases.report_nowhere])
    Cases.report_nowhere /\
  tracked Fixtures.cfg Cases.report_nowhere /\
  exists m,
    filter (fun r => is_forward r = true)
      (issued (main (js := sample_engine) Fixtures.cfg Fixtures.env Cases.post
                 Fixtures.context) (Fixtures.world [Cases.report_nowhere]))
    = [forward_request Fixtures.cfg m] /\
    Message m = "Location Update: lat undefined lon undefined" /\
    Coordinate (ReferencePoint m)
    = {| Latitude := VUndefined; Longitude := VUndefined |}.
Proof.
  assert (tracked Fixtures.cfg Cases.report_nowhere) as Htracked
    by (split; [reflexivity | by left]).
  split; [by apply (selects_only_event _ (num 100))|]. split; [exact Htracked|].
  apply (primitive_coordinates_are_forwarded (js := sample_engine) Fixtures.cfg
           Fixtures.env Cases.post Fixtures.context
           (Fixtures.world [Cases.report_nowhere]) Cases.report_nowhere
           (num 0) "undefined" "undefined").
  - by apply (selects_only_event _ (num 100)).
  - exact Htracked.
  - reflexivity.
  - reflexivity.
  - reflexivity.
  - reflexivity.
  - intros [[=] _].
Defined.

Section Unprintable.
Context {js : Engine} (cfg : Config) (env : Env).

Lemma ToString_throws_not_number (v : value) (err : Error) (n : number) :
  (forall h, ToString h v = Throw err) -> strict_eq_number v n = false.
Proof. intros H. specialize (H ∅). by destruct v. Qed.

(** The handler on a selected object from the sender with a tracking code
    whose latitude or longitude cannot be converted to a string: the
    exception of the template literal is caught and logged. *)
Lemma main_outboundEvent_unprintable event context (ps pp : list (string * value))
    (w : World) (err : Error) :
  tracked cfg (VObj ps) ->
  property (VObj ps) "point" = VObj pp ->
  (forall h, ToString h (property (VObj pp) "latitude") = Throw err) \/
  (is_Some (primitive_string (property (VObj pp) "latitude")) /\
   forall h, ToString h (property (VObj pp) "longitude") = Throw err) ->
  main_outboundEvent cfg env (getLogger cfg env event context) (VObj ps) w =
  (Return {| statusCode := num 200 |},
   {| heap := heap w;
      sent :=
        sent w
          ++ log_call cfg env "Failed to send IPC Inbound request"
               [("error", VStr (error_text err))] "error" event context
               (S (ticks w));
      ticks :=
        S (ticks w)
          + length (log_call cfg env "Failed to send IPC Inbound request"
                      [("error", VStr (error_text err))] "error" event context
                      (S (ticks w))) |}).
Proof.
  intros Htracked Hp Hthrow.
  destruct (tracked_code cfg _ Htracked) as (code & Hc & Hin).
  destruct Htracked as (Himei & _).
  destruct w as [h s t].
  unfold main_outboundEvent, forwardLocationUpdate, bind, lift, ret, try_catch,
    get_heap, Date_now, fetch.
  rewrite !GetV_object, Hp, Hc, Himei. rewrite !GetV_object.
  cbn [heap sent ticks strict_eq_string Set_has].
  rewrite String.eqb_refl, (bool_decide_eq_true_2 _ Hin). cbn [negb].
  assert ((if strict_eq_number (property (VObj pp) "latitude") (num 0)
           then strict_eq_number (property (VObj pp) "longitude") (num 0)
           else false) = false) as Hz.
  { destruct Hthrow as [Hlat | [_ Hlon]].
    - by rewrite (ToString_throws_not_number _ _ _ Hlat).
    - rewrite (ToString_throws_not_number _ _ _ Hlon). by destruct (strict_eq_number _ _). }
  destruct (strict_eq_number (property (VObj pp) "latitude") (num 0));
    [rewrite Hz|]; cbn [error getLogger]; cbv beta; cbn [heap sent ticks].
  all: destruct Hthrow as [Hlat | [[slat Hslat] Hlon]];
    [ rewrite (Hlat h)
    | rewrite (ToString_primitive h _ _ Hslat); cbv beta iota; rewrite (Hlon h) ];
    cbv beta iota; cbn [heap sent ticks].
  all: unfold log_call; rewrite ?log_eq, ?or_else_error_text; cbn [heap sent ticks];
    destruct (logging_enabled cfg); cbn [length];
    rewrite <- ?app_assoc, ?app_nil_r, ?Nat.add_0_r, ?Nat.add_1_r; reflexivity.
Qed.

End Unprintable.

(** X14.  The coordinates are converted to strings inside the [try] block
    of the handler: when the latitude of the selected tracking event, or
    its longitude after a printable latitude, cannot be converted (an
    object whose conversion throws), nothing is forwarded, the failure is
    logged at level error with the message of the exception, and the
    handler still answers 200. *)
Theorem unprintable_coordinate_is_logged {js : Engine} (cfg : Config)
    (env : Env) (event : InvocationEvent) (context : InvocationContext)
    (w : World) (e : value) (err : Error) :
  selects cfg event w e ->
  tracked cfg e ->
  is_object (property e "point") = true ->
  (forall h, ToString h (property (property e "point") "latitude") = Throw err) \/
  (is_Some (primitive_string (property (property e "point") "latitude")) /\
   forall h, ToString h (property (property e "point") "longitude") = Throw err) ->
  completion (main cfg env event context) w = Return {| statusCode := num 200 |} /\
  issued (main cfg env event context) w =
  debug_log cfg env event context w
    ++ log_call cfg env "Failed to send IPC Inbound request"
         [("error", VStr (error_text err))] "error" event context
         (S (ticks w + length (debug_log cfg env event context w))).
Proof.
  intros Hsel Htracked Hobj Hthrow.
  destruct (selects_object cfg event w e Hsel) as [ps ->].
  destruct (property (VObj ps) "point") as [| | | | | |pp] eqn:Hp; try done.
  destruct (main_selected cfg env event context w _ Hsel)
    as (w2 & _ & Hsent & Hticks & Hrun).
  rewrite (main_outboundEvent_unprintable cfg env event context ps pp w2 err
             Htracked Hp Hthrow) in Hrun.
  split; [by apply (completion_run _ _ _ _ Hrun)|].
  erewrite issued_app; [|exact Hrun|].
  2:{ cbn [sent]. rewrite Hsent, <- app_assoc. reflexivity. }
  by rewrite Hticks.
Qed.

Lemma unprintable_coordinate_is_logged_witness :
  selects Fixtures.cfg Cases.post (Fixtures.world [Conversions.report_unprintable])
    Conversions.report_unprintable /\
  tracked Fixtures.cfg Conversions.report_unprintable /\
  completion (main (js := Conversions.engine) Fixtures.cfg Fixtures.env Cases.post
                Fixtures.context) (Fixtures.world [Conversions.report_unprintable])
  = Return {| statusCode := num 200 |} /\
  issued (main (js := Conversions.engine) Fixtures.cfg Fixtures.env Cases.post
            Fixtures.context) (Fixtures.world [Conversions.report_unprintable])
  = [log_request Fixtures.cfg "IPC Outbound request received" [] "debug"
       Cases.post Fixtures.context (num 1000);
     log_request Fixtures.cfg "Failed to send IPC Inbound request"
       [("error", VStr "Cannot convert object to primitive value")] "error"
       Cases.post Fixtures.context (num 1002)].
Proof.
  assert (tracked Fixtures.cfg Conversions.report_unprintable) as Htracked
    by (split; [reflexivity | by left]).
  split; [by apply (selects_only_event _ (num 100))|]. split; [exact Htracked|].
  apply (unprintable_coordinate_is_logged (js := Conversions.engine) Fixtures.cfg
           Fixtures.env Cases.post Fixtures.context
           (Fixtures.world [Conversions.report_unprintable])
           Conversions.report_unprintable
           (TypeError "Cannot convert object to primitive value")).
  - by apply (selects_only_event _ (num 100)).
  - exact Htracked.
  - reflexivity.
  - left. intros h. reflexivity.
Defined.

(** ** The presented credentials *)

Section Credentials.
Local Open Scope N_scope.

Lemma utf8_decode_ascii (buf : Buffer) :
  Forall (fun b => N_of_ascii b <= 127) buf ->
  utf8_decode utf8_idle buf = buf.
Proof.
  induction 1 as [|b buf Hb _ IH]; [done|].
  cbn [utf8_decode]. unfold utf8_step, utf8_idle at 1. cbn [needed].
  unfold utf8_lead. rewrite (proj2 (N.leb_le _ _) Hb). cbn [app]. by rewrite IH.
Qed.

Lemma Buffer_toString_utf8_ascii (s : string) :
  Forall (fun b => N_of_ascii b <= 127) (Buffer_from s) ->
  Buffer_toString_utf8 (Buffer_from s) = s.
Proof.
  intros Hs. unfold Buffer_toString_utf8. rewrite (utf8_decode_ascii _ Hs).
  apply string_of_list_ascii_of_string.
Qed.

Lemma base64_char_no_space (n : N) : Ascii.eqb (base64_char n) " " = false.
Proof.
  unfold base64_char.
  destruct (String.get (N.to_nat n) base64_alphabet) as [c|] eqn:Hc; [|done].
  apply String_get_elem in Hc.
  assert (forallb (fun c => negb (Ascii.eqb c " "))
            (list_ascii_of_string base64_alphabet) = true) as Hall
    by reflexivity.
  rewrite forallb_forall in Hall. apply negb_true_iff. by apply Hall.
Qed.

Lemma no_space_base64 (buf : Buffer) :
  no_space (Buffer_toString_base64 buf) = true.
Proof.
  unfold no_space.
  induction buf as [|x|x y|x y z buf IH] using list_ind3;
    cbn [Buffer_toString_base64 list_ascii_of_string forallb];
    rewrite ?base64_char_no_space; cbn [negb andb]; try done.
Qed.

End Credentials.

(** X15.  What a client presents and what the handler checks round-trip:
    for ASCII credentials, the header [scheme base64(credentials)] is
    authorized exactly when the credentials are the configured token
    followed by a colon, the Basic credentials of the user named by the
    token with an empty password.  Any other user name, and the right one
    with a password, are refused. *)
Theorem presented_credentials_are_checked (cfg : Config)
    (event : InvocationEvent) (hd : WebEventHTTP.t)
    (scheme credentials : string) :
  no_space scheme = true ->
  Forall (fun b => (N_of_ascii b <= 127)%N) (Buffer_from credentials) ->
  http event = Some hd ->
  WebEventHTTP.authorization hd
  = Some (scheme +:+ " " +:+ Buffer_toString_base64 (Buffer_from credentials)) ->
  isAuthorizedRequest cfg event = true <->
  credentials = REQUEST_AUTH_TOKEN cfg +:+ ":".
Proof.
  intros Hscheme Hascii Hhttp Hheader.
  pose proof (no_space_base64 (Buffer_from credentials)) as Htoken.
  assert (String_split " "
            (scheme +:+ " " +:+ Buffer_toString_base64 (Buffer_from credentials))
          !! 1%nat = Some (Buffer_toString_base64 (Buffer_from credentials)))
    as Hsplit.
  { change (" " +:+ Buffer_toString_base64 (Buffer_from credentials))
      with (String " " (Buffer_toString_base64 (Buffer_from credentials))).
    by rewrite (String_split_part _ _ Hscheme), (String_split_no_space _ Htoken). }
  pose proof (Buffer_toString_utf8_ascii credentials Hascii) as Hdecode.
  rewrite isAuthorizedRequest_spec. split.
  - intros (hd' & authz & tok & Hhd & Hauthz & Htok & Hdec).
    assert (hd' = hd) as -> by congruence.
    assert (authz = scheme +:+ " " +:+ Buffer_toString_base64 (Buffer_from credentials))
      as -> by congruence.
    assert (tok = Buffer_toString_base64 (Buffer_from credentials)) as ->
      by congruence.
    by rewrite base64_roundtrip, Hdecode in Hdec.
  - intros Hcred. eexists hd, _, _. split; [done|]. split; [exact Hheader|].
    split; [exact Hsplit|]. by rewrite base64_roundtrip, Hdecode.
Qed.

Lemma presented_credentials_are_checked_witness :
  no_space "Basic" = true /\
  Forall (fun b => (N_of_ascii b <= 127)%N) (Buffer_from "token:secret") /\
  (isAuthorizedRequest Fixtures.cfg (Fixtures.request "Basic dG9rZW46c2VjcmV0" "POST")
   = true <-> "token:secret" = "token:").
Proof.
  split; [reflexivity|]. split; [by repeat constructor|].
  apply (presented_credentials_are_checked Fixtures.cfg
           (Fixtures.request "Basic dG9rZW46c2VjcmV0" "POST")
           {| WebEventHTTP.authorization := Some "Basic dG9rZW46c2VjcmV0";
              WebEventHTTP.method := "POST"; WebEventHTTP.path := "" |}
           "Basic" "token:secret"); try reflexivity.
  by repeat constructor.
Defined.

(** X16.  The token is the part between the first and the second space of
    the header: a header without a space, a header that ends with its first
    space, and a header in which a second space follows the first one
    directly are refused whatever they hold, a correctly encoded token after
    two spaces included. *)
Theorem token_must_follow_first_space (cfg : Config) (event : InvocationEvent)
    (hd : WebEventHTTP.t) (scheme rest : string) :
  no_space scheme = true ->
  http event = Some hd ->
  WebEventHTTP.authorization hd = Some scheme \/
  WebEventHTTP.authorization hd = Some (scheme +:+ " ") \/
  WebEventHTTP.authorization hd = Some (scheme +:+ "  " +:+ rest) ->
  isAuthorizedRequest cfg event = false.
Proof.
  intros Hscheme Hhttp Hheader.
  destruct (isAuthorizedRequest cfg event) eqn:Hauth; [exfalso|done].
  apply isAuthorizedRequest_spec in Hauth
    as (hd' & authz & tok & Hhd & Hauthz & Htok & Hdec).
  assert (hd' = hd) as -> by congruence.
  assert (tok = "") as ->.
  { destruct Hheader as [H|[H|H]]; rewrite H in Hauthz;
      injection Hauthz as <-.
    - by rewrite (String_split_no_space _ Hscheme) in Htok.
    - change (scheme +:+ " ") with (scheme +:+ String " " "") in Htok.
      rewrite (String_split_part _ _ Hscheme) in Htok.
      cbn in Htok. congruence.
    - change (scheme +:+ "  " +:+ rest)
        with (scheme +:+ String " " (String " " rest)) in Htok.
      rewrite (String_split_part _ _ Hscheme) in Htok.
      cbn [String_split] in Htok. cbn in Htok. congruence. }
  by eapply append_colon_nonempty.
Qed.

Lemma token_must_follow_first_space_witness :
  no_space "Basic" = true /\
  isAuthorizedRequest Fixtures.cfg (Fixtures.request "Basic  dG9rZW46" "POST") = false.
Proof.
  split; [reflexivity|].
  apply (token_must_follow_first_space Fixtures.cfg
           (Fixtures.request "Basic  dG9rZW46" "POST")
           {| WebEventHTTP.authorization := Some "Basic  dG9rZW46";
              WebEventHTTP.method := "POST"; WebEventHTTP.path := "" |}
           "Basic" "dG9rZW46"); [reflexivity | reflexivity |].
  right; right. reflexivity.
Defined.

Section Harmless.
Context {js : Engine} (cfg : Config) (env : Env).

Lemma GetV_property (v : value) (k : string) :
  v <> VUndefined -> v <> VNull -> GetV v k = Return (property v k).
Proof. by destruct v. Qed.

Lemma byTimeStamp_primitive (h : Heap) (a b : value) :
  a <> VUndefined -> a <> VNull -> is_primitive (property a "timeStamp") = true ->
  b <> VUndefined -> b <> VNull -> is_primitive (property b "timeStamp") = true ->
  exists v, byTimeStamp h a b = Return v.
Proof.
  intros Ha Ha' Hta Hb Hb' Htb. unfold byTimeStamp.
  rewrite (GetV_property a _ Ha Ha'), (GetV_property b _ Hb Hb'). cbn [obind].
  unfold JS_sub.
  destruct (property a "timeStamp"); try done;
    destruct (property b "timeStamp"); try done; cbn [ToNumber obind]; by eexists.
Qed.

(** A sort whose comparison function returns on the elements returns,
    and keeps what holds of every element. *)
Lemma sort_insert_total (comparefn : value -> value -> outcome (option number))
    (P : value -> Prop) (x : value) (s : list value) :
  (forall a b, P a -> P b -> exists v, comparefn a b = Return v) ->
  P x -> Forall P s ->
  exists r, sort_insert comparefn x s = Return r /\ Forall P r.
Proof.
  intros Hcmp Hx. induction 1 as [|y s Hy Hs IH]; cbn [sort_insert].
  - exists [x]. split; [done|]. by constructor.
  - destruct (Hcmp x y Hx Hy) as [v ->]. cbn [obind].
    destruct (comes_after v).
    + destruct IH as (r & -> & Hr). cbn [obind]. eexists. split; [done|].
      by constructor.
    + eexists. split; [done|]. by repeat constructor.
Qed.

Lemma sort_list_total (comparefn : value -> value -> outcome (option number))
    (P : value -> Prop) (l : list value) :
  (forall a b, P a -> P b -> exists v, comparefn a b = Return v) ->
  Forall P l ->
  exists s, sort_list comparefn l = Return s /\ Forall P s.
Proof.
  intros Hcmp. induction 1 as [|x l Hx Hl IH]; cbn [sort_list].
  - by exists [].
  - destruct IH as (s & -> & Hs). cbn [obind].
    by apply (sort_insert_total comparefn P).
Qed.

Lemma harmless_undefined : harmless cfg VUndefined.
Proof. split; [done|]. split; [done|]. by intros [[=] _]. Qed.

Lemma sorted_elements_harmless (h : Heap) (l : list value) :
  Forall (harmless cfg) l ->
  exists s, sorted_elements (byTimeStamp h) l = Return s /\
            harmless cfg (default VUndefined (last s)).
Proof.
  intros Hl. unfold sorted_elements.
  destruct (sort_list_total (byTimeStamp h)
              (fun v => v <> VUndefined /\ harmless cfg v)
              (filter (fun v => is_undefined v = false) l)) as (s & -> & Hs).
  - intros a b [Ha (Ha' & Hta & _)] [Hb (Hb' & Htb & _)].
    by apply byTimeStamp_primitive.
  - rewrite Forall_forall in Hl. apply Forall_forall.
    intros v [Hv Hin]%list_elem_of_filter. split; [by destruct v|]. by apply Hl.
  - cbn [obind]. eexists. split; [done|].
    destruct (last (s ++ filter (fun v => is_undefined v = true) l)) as [v|] eqn:Hlast;
      [|apply harmless_undefined].
    cbn [default from_option id]. apply last_Some_elem_of in Hlast.
    apply elem_of_app in Hlast as [Hin|Hin].
    + rewrite Forall_forall in Hs. by apply Hs.
    + apply list_elem_of_filter in Hin as [Hv _]. destruct v; try done.
      apply harmless_undefined.
Qed.

(** The rest of the handler on a selected element that is harmless. *)
Lemma main_outboundEvent_harmless event context (e : value) (w : World) :
  ToBoolean e = true ->
  harmless cfg e ->
  (main_outboundEvent cfg env (getLogger cfg env event context) e w).1
  = Return {| statusCode := num 200 |}.
Proof.
  intros Htruthy (_ & _ & Hpoint).
  destruct e as [| | | | | |ps]; try done.
  destruct (tracked_dec cfg (VObj ps)) as [Htracked|Hnot].
  2:{ by rewrite (main_outboundEvent_untracked cfg env event context ps w Hnot). }
  destruct (Hpoint Htracked) as [Hdef Hnull]. destruct w as [h s t].
  unfold main_outboundEvent, forwardLocationUpdate, getLogger, bind, try_catch,
    lift, ret, get_heap, Date_now, fetch.
  rewrite !GetV_object.
  destruct (property (VObj ps) "point") as [| | | | | |pp]; try done;
    cbn [GetV]; run; reflexivity.
Qed.

End Harmless.

(** X17.  The handler answers 200, whatever the method, the headers, the
    clock and the completions of the outbound calls are (a success, a
    response that is not ok with or without a JSON body, a rejection),
    provided that [Events], when it is an array, holds no [null], no
    element whose [timeStamp] is an object or an array, and no tracking
    event of the configured sender without a [point].  Elements that are
    not objects, events without a [timeStamp], and events of other devices
    or with other message codes without a [point] are all answered
    with 200. *)
Theorem harmless_batch_returns_200 {js : Engine} (cfg : Config) (env : Env)
    (event : InvocationEvent) (context : InvocationContext) (w : World) :
  (forall l, Events event = VArr l -> Forall (harmless cfg) (elements (heap w) l)) ->
  completion (main cfg env event context) w = Return {| statusCode := num 200 |}.
Proof.
  intros Hbatch.
  destruct (isAuthorizedRequest cfg event) eqn:Hauth.
  2:{ by rewrite (completion_run _ w w _ (main_unauthorized cfg env event context w Hauth)). }
  destruct (decide (WebEventHTTP.method <$> http event = Some "POST")) as [Hpost|Hpost].
  2:{ rewrite (completion_run _ w w _
                 (main_not_well_shaped cfg env event context w (or_introl Hpost))).
      done. }
  destruct (Array_isArray (Events event)) eqn:Harr.
  2:{ rewrite (completion_run _ w w _
                 (main_not_well_shaped cfg env event context w (or_intror Harr))).
      done. }
  destruct (Events event) as [| | | | |l|] eqn:Hevents; try done.
  destruct (main_by_sort cfg env event context l w Hauth Hpost Hevents)
    as (w2 & _ & _ & _ & Hrun).
  destruct (sorted_elements_harmless cfg
              (<[fresh (dom (heap w)) := elements (heap w) l]> (heap w))
              (elements (heap w) l) (Hbatch l eq_refl)) as (s & Hsort & Hlast).
  rewrite Hsort in Hrun. unfold completion. rewrite Hrun.
  destruct (ToBoolean (default VUndefined (last s))) eqn:Htruthy; [|done].
  by apply main_outboundEvent_harmless.
Qed.

(** A batch that holds a string, a number, an event of another device
    without a point, an event without a [timeStamp] and a position report
    whose forward call is rejected by the inbound API. *)
Lemma harmless_batch_returns_200_witness :
  let batch :=
    [VStr "ping"; VNum (num 3); Cases.stranger;
     VObj [("imei", VStr Fixtures.sender); ("messageCode", VNum (num 3))];
     Cases.report] in
  Forall (harmless Fixtures.cfg) batch /\
  completion
    (main (js := sample_engine) Fixtures.cfg Fixtures.env_rejecting Cases.post
       Fixtures.context)
    (Fixtures.world batch) = Return {| statusCode := num 200 |}.
Proof.
  cbv zeta.
  assert (Forall (harmless Fixtures.cfg)
            [VStr "ping"; VNum (num 3); Cases.stranger;
             VObj [("imei", VStr Fixtures.sender); ("messageCode", VNum (num 3))];
             Cases.report]) as Hbatch.
  { repeat first [apply Forall_nil_2 | apply Forall_cons_2];
      (split; [done|]; split; [done|]; intros [Himei Hcode]);
      first [ discriminate Himei
            | destruct Hcode as [Hc|[Hc|Hc]]; discriminate Hc
            | by split ]. }
  split; [exact Hbatch|].
  apply (harmless_batch_returns_200 (js := sample_engine) Fixtures.cfg
           Fixtures.env_rejecting Cases.post Fixtures.context (Fixtures.world _)).
  intros l [= <-]. exact Hbatch.
Defined.
